(** * Feeds: identity model and signer

    A shallow embedding of the Go package [feed] (topics, addresses, feeds
    and the generic signer) and the properties its specification states
    about them.

    Bytes are integers ([Z]).  The xor, the shifts to the right and the
    masks that the code applies to bytes stay inside the range 0..255; the
    one subtraction on a byte is written with its wrap-around.  Go strings
    and byte slices are lists of bytes; a slice whose capacity matters is a
    [slice].  A fixed-size array ([Topic], [Address], [Hash], [Signature])
    is a list together with a length predicate.  A nil slice argument is
    [None] where the code tells it apart from an empty one. *)

From Stdlib Require Import String Ascii DecimalString.
From Stdlib Require Import ZArith List Bool Lia PeanoNat.
Import ListNotations.

Set Warnings "-notation-for-abbreviation".

Local Open Scope Z_scope.

(** ** Bytes, slices and the built-in [copy] *)

Notation byte := Z (only parsing).

Definition is_byte (b : byte) : Prop := 0 <= b < 256.

Notation bytes := (list Z) (only parsing).

(** Go's [copy(dst, src)]: the first [min (len dst) (len src)] elements of
    [dst] are overwritten, the rest of [dst] stays. *)
Definition copy (dst src : bytes) : bytes :=
  firstn (length dst) src ++ skipn (length src) dst.

(** [copy(buf[lo:hi], src)] seen from [buf]: the window is overwritten in
    place, the bytes around it are untouched. *)
Definition copy_at (buf : bytes) (lo hi : nat) (src : bytes) : bytes :=
  firstn lo buf ++ copy (firstn (hi - lo) (skipn lo buf)) src ++ skipn hi buf.

(** [bytes.IndexByte]: index of the first occurrence, -1 when there is none. *)
Fixpoint IndexByte (b : bytes) (c : byte) : Z :=
  match b with
  | [] => -1
  | x :: rest =>
      if x =? c then 0
      else let z := IndexByte rest c in
           if z <? 0 then -1 else z + 1
  end.

(** ** Errors *)

Inductive ErrCode : Type :=
| ErrInvalidValue
| ErrNotFound.

(** Modelled from the spec: the error values of the package ([NewError],
    [NewErrorf] and the codes [ErrInvalidValue], [ErrNotFound]) are declared
    in a file that is not part of the sources; an error carries its code and
    its formatted message.  Errors built by [errors.New] or [fmt.Errorf]
    carry their message only, and errors handed back by a library are kept
    as the library returned them. *)
Inductive error : Type :=
| FeedError (code : ErrCode) (msg : string)
| PlainError (msg : string)
| LibError (lib : string) (msg : string).

(** [%d] of [fmt]. *)
Definition fmt_d (n : nat) : string := NilZero.string_of_uint (Nat.to_uint n).

Definition NewError (code : ErrCode) (msg : string) : error := FeedError code msg.

(** ** Topic *)

Definition ChunkAddressLength : nat := 32.
Definition TopicLength : nat := ChunkAddressLength.

Definition Topic := bytes.

Definition wf_topic (t : Topic) : Prop := length t = TopicLength.

Definition zero_topic : Topic := repeat 0 TopicLength.

Definition ErrTopicTooLong : error :=
  PlainError ("Topic is too long. Max length is " ++ fmt_d TopicLength)%string.

Fixpoint xor_prefix (a b : bytes) : bytes :=
  match a, b with
  | x :: a', y :: b' => Z.lxor x y :: xor_prefix a' b'
  | _, _ => []
  end.

(** Modelled from the spec: the byte-XOR helper [XORBytes(dst, a, b)] is
    among the hash/XOR primitives that are not part of the sources.  It
    xors [a] and [b] byte by byte over the length of the shorter one,
    stores the result at the start of [dst] and leaves the rest of [dst]
    as it was. *)
Definition XORBytes (dst a b : bytes) : bytes := copy dst (xor_prefix a b).

(** [NewTopic]: a nil [relatedContent] is [None]. *)
Definition NewTopic (name : bytes) (relatedContent : option bytes)
  : Topic * option error :=
  let topic := zero_topic in
  let err : option error := None in
  let '(topic, err) :=
    match relatedContent with
    | Some rc =>
        let contentLength := length rc in
        let '(contentLength, err) :=
          if (TopicLength <? contentLength)%nat
          then (TopicLength, Some ErrTopicTooLong)
          else (contentLength, err) in
        (copy topic (firstn contentLength rc), err)
    | None => (topic, err)
    end in
  let nameBytes := name in
  let nameLength := length nameBytes in
  let '(nameLength, err) :=
    if (TopicLength <? nameLength)%nat
    then (TopicLength, Some ErrTopicTooLong)
    else (nameLength, err) in
  (XORBytes topic topic (firstn nameLength nameBytes), err).

(** [Topic.Name]. *)
Definition Name (t : Topic) (relatedContent : option bytes) : bytes :=
  let nameBytes := t in
  let nameBytes :=
    match relatedContent with
    | Some rc =>
        let contentLength := length rc in
        let contentLength :=
          if (TopicLength <? contentLength)%nat then TopicLength
          else contentLength in
        XORBytes nameBytes t (firstn contentLength rc)
    | None => nameBytes
    end in
  let z := IndexByte nameBytes 0 in
  let z := if z <? 0 then Z.of_nat TopicLength else z in
  firstn (Z.to_nat z) nameBytes.

(** ** Results of fallible operations *)

(** A Go function that returns [(T, error)] with a zero [T] next to a
    non-nil error, and that may also stop with a run-time panic. *)
Inductive result (A : Type) : Type :=
| Ok (a : A)
| Err (e : error)
| Panic (why : string).

Arguments Ok {A} a.
Arguments Err {A} e.
Arguments Panic {A} why.

(** ** Hexadecimal text ([encoding/hex]) *)

Definition hextable : bytes :=
  [48; 49; 50; 51; 52; 53; 54; 55; 56; 57; 97; 98; 99; 100; 101; 102].

Definition hexdigit (n : Z) : byte := nth (Z.to_nat n) hextable 0.

(** [hex.EncodeToString]: two lower-case digits per byte, high nibble first. *)
Fixpoint EncodeToString (src : bytes) : bytes :=
  match src with
  | [] => []
  | v :: rest =>
      hexdigit (Z.shiftr v 4) :: hexdigit (Z.land v 15) :: EncodeToString rest
  end.

Definition fromHexChar (c : byte) : option byte :=
  if (48 <=? c) && (c <=? 57) then Some (c - 48)
  else if (97 <=? c) && (c <=? 102) then Some (c - 97 + 10)
  else if (65 <=? c) && (c <=? 70) then Some (c - 65 + 10)
  else None.

Inductive hex_error : Type :=
| InvalidByteError (c : byte)
| ErrLength.

Definition hex_error_to_error (e : hex_error) : error :=
  match e with
  | InvalidByteError _ => LibError "encoding/hex" "invalid byte"
  | ErrLength => LibError "encoding/hex" "odd length hex string"
  end.

(** [hex.Decode]: the bytes decoded before the first problem, and the
    problem if there is one. *)
Fixpoint hex_Decode (src : bytes) : bytes * option hex_error :=
  match src with
  | [] => ([], None)
  | [p] =>
      match fromHexChar p with
      | None => ([], Some (InvalidByteError p))
      | Some _ => ([], Some ErrLength)
      end
  | p :: q :: rest =>
      match fromHexChar p with
      | None => ([], Some (InvalidByteError p))
      | Some a =>
          match fromHexChar q with
          | None => ([], Some (InvalidByteError q))
          | Some b =>
              let '(out, e) := hex_Decode rest in
              (Z.lor (Z.shiftl a 4) b :: out, e)
          end
      end
  end.

(** A Go slice: the part of the backing array that starts at the slice's
    first element (its length is the capacity) and the slice's length. *)
Record slice : Type := mkSlice { backing : bytes; slen : nat }.

Definition slice_cap (s : slice) : nat := length (backing s).

Definition slice_bytes (s : slice) : bytes := firstn (slen s) (backing s).

(** The slice expression [s[:hi]]: legal up to the capacity, a run-time
    panic beyond it. *)
Definition slice_upto (s : slice) (hi : nat) : option bytes :=
  if (hi <=? slice_cap s)%nat then Some (firstn hi (backing s)) else None.

(** [hex.DecodeString]: the destination is allocated with
    [make([]byte, len(s)/2)] and cut to the number of bytes decoded, so
    that after a successful decoding capacity and length agree. *)
Definition DecodeString (s : bytes) : slice * option hex_error :=
  let '(out, e) := hex_Decode s in
  (mkSlice (out ++ repeat 0 (Nat.div (length s) 2 - length out)) (length out), e).

(** ** Address *)

Definition HashLength : nat := 32.
Definition AddressLength : nat := 20.

Definition Address := bytes.

Definition wf_address (a : Address) : Prop := length a = AddressLength.

Definition zero_address : Address := repeat 0 AddressLength.

(** [result[i] = v] on a slice. *)
Fixpoint set_nth (l : bytes) (i : nat) (v : byte) : bytes :=
  match l, i with
  | [], _ => []
  | _ :: rest, O => v :: rest
  | x :: rest, S i' => x :: set_nth rest i' v
  end.

Section WithKeccak.

(** [sha3.NewLegacyKeccak256], [Write], [Sum(nil)] as one function from the
    message to the digest. *)
Variable LegacyKeccak256 : bytes -> bytes.

(** One turn of the loop of [Address.Hex] at index [i]; [None] is an
    index out of range. *)
Definition Hex_step (hash : bytes) (result : bytes) (i : nat) : option bytes :=
  match nth_error hash (Nat.div i 2) with
  | None => None
  | Some hashByte =>
      let hashByte :=
        if (Nat.modulo i 2 =? 0)%nat then Z.shiftr hashByte 4
        else Z.land hashByte 15 in
      match nth_error result i with
      | None => None
      | Some c =>
          if (c >? 57) && (hashByte >? 7)
          then Some (set_nth result i ((c - 32) mod 256))
          else Some result
      end
  end.

Fixpoint Hex_loop (hash : bytes) (result : bytes) (i n : nat) : option bytes :=
  match n with
  | O => Some result
  | S n' =>
      match Hex_step hash result i with
      | None => None
      | Some result' => Hex_loop hash result' (S i) n'
      end
  end.

(** [Address.Hex]: [None] stands for a run-time panic. *)
Definition Hex (a : Address) : option bytes :=
  let unchecksummed := EncodeToString a in
  let hash := LegacyKeccak256 unchecksummed in
  let result := unchecksummed in
  Hex_loop hash result 0 (length result).

End WithKeccak.

Section WithJSON.

(** [json.Unmarshal(data, &s)] for a string [s]: the decoded string or the
    decoder's error. *)
Variable json_Unmarshal_string : bytes -> bytes + error.

(** [Address.UnmarshalJSON]: the address after the call and the outcome. *)
Definition Address_UnmarshalJSON (a : Address) (data : bytes)
  : result Address :=
  match json_Unmarshal_string data with
  | inr err => Err err
  | inl s =>
      let '(v, err) := DecodeString s in
      match err with
      | Some e => Err (hex_error_to_error e)
      | None =>
          match slice_upto v AddressLength with
          | None => Panic "slice bounds out of range"
          | Some src => Ok (copy a src)
          end
      end
  end.

End WithJSON.

(** [Topic.FromHex]: the topic after the call and the error returned. *)
Definition FromHex (t : Topic) (h : bytes) : Topic * option error :=
  let '(bs, err) := DecodeString h in
  if (match err with Some _ => true | None => false end)
     || negb (length (slice_bytes bs) =? TopicLength)%nat
  then (t, Some (NewError ErrInvalidValue "Cannot decode topic"))
  else (copy t (slice_bytes bs), None).

(** [Topic.Hex]. *)
Definition Topic_Hex (t : Topic) : bytes := EncodeToString t.

(** ** Feed *)

Record Feed : Type := mkFeed { Feed_Topic : Topic; Feed_User : Address }.

Definition wf_feed (f : Feed) : Prop :=
  wf_topic (Feed_Topic f) /\ wf_address (Feed_User f).

Definition feedLength : nat := TopicLength + AddressLength.

(** [Feed.binaryPut]: the buffer after the call and the error returned. *)
Definition binaryPut (f : Feed) (serializedData : bytes) : bytes * option error :=
  if negb (length serializedData =? feedLength)%nat
  then (serializedData,
        Some (NewError ErrInvalidValue
                ("Incorrect slice size to serialize feed. Expected "
                 ++ fmt_d feedLength ++ ", got "
                 ++ fmt_d (length serializedData))%string))
  else
    let cursor := 0%nat in
    let serializedData :=
      copy_at serializedData cursor (cursor + TopicLength)
              (firstn TopicLength (Feed_Topic f)) in
    let cursor := (cursor + TopicLength)%nat in
    let serializedData :=
      copy_at serializedData cursor (cursor + AddressLength) (Feed_User f) in
    (serializedData, None).

(** [Feed.binaryGet]: the feed after the call and the error returned. *)
Definition binaryGet (f : Feed) (serializedData : bytes) : Feed * option error :=
  if negb (length serializedData =? feedLength)%nat
  then (f,
        Some (NewError ErrInvalidValue
                ("Incorrect slice size to read feed. Expected "
                 ++ fmt_d feedLength ++ ", got "
                 ++ fmt_d (length serializedData))%string))
  else
    let cursor := 0%nat in
    let topic :=
      copy (Feed_Topic f)
           (firstn TopicLength (skipn cursor serializedData)) in
    let cursor := (cursor + TopicLength)%nat in
    let user :=
      copy (Feed_User f)
           (firstn AddressLength (skipn cursor serializedData)) in
    (mkFeed topic user, None).

(** The byte order in which the machine reads a multi-byte integer from
    memory. *)
Inductive ByteOrder : Type := LittleEndian | BigEndian.

Fixpoint le_uint (b : bytes) : Z :=
  match b with
  | [] => 0
  | x :: rest => x + 256 * le_uint rest
  end.

(** The [unsafe.Pointer] cast of [&hash[0]] to a pointer to [uint64] and its
    dereference: the eight bytes at the start of [hash] read as one machine
    word.  Taking [&hash[0]] of an empty slice
    panics; fewer than eight bytes would read past the slice. *)
Definition read_uint64 (order : ByteOrder) (hash : bytes) : option Z :=
  if (8 <=? length hash)%nat then
    match order with
    | LittleEndian => Some (le_uint (firstn 8 hash))
    | BigEndian => Some (le_uint (rev (firstn 8 hash)))
    end
  else None.

Section WithHashPool.

(** A hasher taken from [hashPool], after [Reset], [Write] of the data and
    [Sum(nil)]. *)
Variable pooled_hash : bytes -> bytes.

(** [Feed.mapKey] on a machine of the given byte order. *)
Definition mapKey (order : ByteOrder) (f : Feed) : option Z :=
  let serializedData := repeat 0 feedLength in
  let '(serializedData, _) := binaryPut f serializedData in
  let hash := pooled_hash serializedData in
  read_uint64 order hash.

End WithHashPool.

(** ** Signer and recovery *)

Definition signatureLength : nat := 65.

Definition Hash := bytes.
Definition Signature := bytes.

(** [ecdsa.PublicKey]: the two coordinates are pointers to big integers and
    may be nil. *)
Record PublicKey : Type := mkPublicKey { pk_X : option Z; pk_Y : option Z }.

Record PrivateKey : Type :=
  mkPrivateKey { sk_PublicKey : PublicKey; sk_D : Z }.

Record GenericSigner : Type :=
  mkGenericSigner { PrivKey : PrivateKey; address : Address }.

Section WithBtcec.

(** [btcec.SignCompact(btcec.S256(), key, hash, isCompressedKey)]. *)
Variable SignCompact : PrivateKey -> bytes -> bool -> bytes + error.

(** [btcec.RecoverCompact(btcec.S256(), signature, hash)]: the key and
    whether it was compressed, or the library's error. *)
Variable RecoverCompact : bytes -> bytes -> (PublicKey * bool) + error.

(** [GenericSigner.sign]: the two [fmt.Println] calls only print. *)
Definition sign (s : GenericSigner) (sighash : bytes) (isCompressedKey : bool)
  : result bytes :=
  match SignCompact (PrivKey s) sighash false with
  | inr err => Err err
  | inl signature =>
      match nth_error signature 0 with
      | None => Panic "index out of range"
      | Some v =>
          let signature := copy signature (skipn 1 signature) in
          if (64 <? length signature)%nat
          then Ok (set_nth signature 64 v)
          else Panic "index out of range"
      end
  end.

(** [GenericSigner.Sign]. *)
Definition Sign (s : GenericSigner) (data : Hash) : result Signature :=
  match sign s data true with
  | Err err => Err err
  | Panic why => Panic why
  | Ok sig => Ok (copy (repeat 0 signatureLength) sig)
  end.

(** [Recover]. *)
Definition Recover (signature data : bytes) : result PublicKey :=
  if negb (length signature =? 65)%nat
  then Err (PlainError "invalid signature length")
  else
    let btcsig := repeat 0 65%nat in
    match nth_error signature 64 with
    | None => Panic "index out of range"
    | Some v =>
        let btcsig := set_nth btcsig 0 v in
        let btcsig := copy_at btcsig 1 65 signature in
        match RecoverCompact btcsig data with
        | inl (p, _) => Ok p
        | inr err => Err err
        end
    end.

End WithBtcec.

(** [FillBytes] of a big integer into [n] bytes, most significant first. *)
Fixpoint be_fill (n : nat) (x : Z) : bytes :=
  match n with
  | O => []
  | S n' => be_fill n' (x / 256) ++ [x mod 256]
  end.

(** The curve [secp256k1.S256()]: the prime of the field and the constant
    of the equation y^2 = x^3 + 7. *)
Definition secp256k1_P : Z := 2 ^ 256 - 2 ^ 32 - 977.

Definition secp256k1_B : Z := 7.

(** [BitCurve.IsOnCurve]: both sides of the equation reduced modulo the
    prime, with the Euclidean remainder of [big.Int.Mod]. *)
Definition IsOnCurve (x y : Z) : bool :=
  let y2 := (y * y) mod secp256k1_P in
  let x3 := (x * x * x + secp256k1_B) mod secp256k1_P in
  x3 =? y2.

(** [elliptic.Marshal] on this curve.  It panics on a point that is not on
    the curve, the pair (0, 0) excepted, and [FillBytes] panics on a
    coordinate whose absolute value does not fit 32 bytes; otherwise the
    result is the tag 4 followed by the absolute values of both
    coordinates on 32 bytes each. *)
Definition elliptic_Marshal (x y : Z) : result (list Z) :=
  if negb (((x =? 0) && (y =? 0)) || IsOnCurve x y)
  then Panic "crypto/elliptic: attempted operation on invalid point"
  else if (Z.abs x <? 2 ^ 256) && (Z.abs y <? 2 ^ 256)
       then Ok (4 :: be_fill 32 (Z.abs x) ++ be_fill 32 (Z.abs y))
       else Panic "math/big: buffer too small to fit value".

(** [FromECDSAPub]: a nil result is the empty slice. *)
Definition FromECDSAPub (pub : option PublicKey) : result (list Z) :=
  match pub with
  | None => Ok []
  | Some p =>
      match pk_X p, pk_Y p with
      | Some x, Some y => elliptic_Marshal x y
      | _, _ => Ok []
      end
  end.

(** [common.BytesToAddress]: the last 20 bytes of a longer input, a shorter
    input right-aligned in a zero address. *)
Definition BytesToAddress (b : bytes) : Address :=
  let b := if (AddressLength <? length b)%nat
           then skipn (length b - AddressLength) b else b in
  copy_at zero_address (AddressLength - length b) AddressLength b.

(** The slice expression [s[lo:]]. *)
Definition slice_from (s : bytes) (lo : nat) : option bytes :=
  if (lo <=? length s)%nat then Some (skipn lo s) else None.

Section WithKeccakAddress.

(** [Keccak256] of one byte slice. *)
Variable Keccak256 : bytes -> bytes.

(** [PubkeyToAddress]. *)
Definition PubkeyToAddress (p : PublicKey) : result Address :=
  match FromECDSAPub (Some p) with
  | Panic why => Panic why
  | Err err => Err err
  | Ok pubBytes =>
      match slice_from pubBytes 1 with
      | None => Panic "slice bounds out of range"
      | Some body =>
          match slice_from (Keccak256 body) 12 with
          | None => Panic "slice bounds out of range"
          | Some tail => Ok (BytesToAddress tail)
          end
      end
  end.

End WithKeccakAddress.

(** ** The legacy Keccak-256 hash

    The hash behind [sha3.NewLegacyKeccak256] and [Keccak256], written out
    so that the identity functions can be run on the test vectors: the
    Keccak-f[1600] permutation on 25 lanes of 64 bits, rate 136 bytes,
    padding byte 1. *)
Module Keccak.

Definition mask64 : Z := 2 ^ 64 - 1.

Definition rotl64 (x : Z) (n : Z) : Z :=
  Z.land (Z.lor (Z.shiftl x n) (Z.shiftr x (64 - n))) mask64.

Definition lane (s : list Z) (i : nat) : Z := nth i s 0.

Definition idx (x y : nat) : nat := (Nat.modulo x 5 + 5 * y)%nat.

Definition rotation : list Z :=
  [0; 1; 62; 28; 27;
   36; 44; 6; 55; 20;
   3; 10; 43; 25; 39;
   41; 45; 15; 21; 8;
   18; 2; 61; 56; 14].

Definition round_constants : list Z :=
  [0x0000000000000001; 0x0000000000008082; 0x800000000000808A;
   0x8000000080008000; 0x000000000000808B; 0x0000000080000001;
   0x8000000080008081; 0x8000000000008009; 0x000000000000008A;
   0x0000000000000088; 0x0000000080008009; 0x000000008000000A;
   0x000000008000808B; 0x800000000000008B; 0x8000000000008089;
   0x8000000000008003; 0x8000000000008002; 0x8000000000000080;
   0x000000000000800A; 0x800000008000000A; 0x8000000080008081;
   0x8000000000008080; 0x0000000080000001; 0x8000000080008008].

Definition column (s : list Z) (x : nat) : Z :=
  Z.lxor (lane s (idx x 0))
    (Z.lxor (lane s (idx x 1))
       (Z.lxor (lane s (idx x 2))
          (Z.lxor (lane s (idx x 3)) (lane s (idx x 4))))).

Definition theta (s : list Z) : list Z :=
  let c := map (column s) (seq 0 5) in
  map (fun i =>
         let x := Nat.modulo i 5 in
         Z.lxor (lane s i)
           (Z.lxor (lane c (Nat.modulo (x + 4) 5))
              (rotl64 (lane c (Nat.modulo (x + 1) 5)) 1)))
      (seq 0 25).

Definition rho_pi (s : list Z) : list Z :=
  map (fun i =>
         let x := Nat.modulo i 5 in
         let y := Nat.div i 5 in
         let j := idx (x + 3 * y) x in
         rotl64 (lane s j) (nth j rotation 0))
      (seq 0 25).

Definition chi (s : list Z) : list Z :=
  map (fun i =>
         let x := Nat.modulo i 5 in
         let y := Nat.div i 5 in
         Z.lxor (lane s i)
           (Z.land (Z.lxor (lane s (idx (x + 1) y)) mask64)
              (lane s (idx (x + 2) y))))
      (seq 0 25).

Definition iota (rc : Z) (s : list Z) : list Z :=
  map (fun i => if (i =? 0)%nat then Z.lxor (lane s 0) rc else lane s i)
      (seq 0 25).

Definition round (s : list Z) (rc : Z) : list Z :=
  iota rc (chi (rho_pi (theta s))).

Definition keccak_f (s : list Z) : list Z :=
  fold_left round round_constants s.

Definition rate : nat := 136.

(** The message followed by the padding 1, 0, ..., 0 with the top bit of
    the last byte of the block set. *)
Definition pad (m : bytes) : bytes :=
  let fill := (rate - 1 - Nat.modulo (length m) rate)%nat in
  match fill with
  | O => m ++ [129]
  | S k => m ++ [1] ++ repeat 0 k ++ [128]
  end.

Definition absorb_block (s : list Z) (block : bytes) : list Z :=
  keccak_f
    (map (fun i =>
            Z.lxor (lane s i)
              (if (i <? 17)%nat
               then le_uint (firstn 8 (skipn (8 * i) block))
               else 0))
         (seq 0 25)).

Fixpoint absorb (fuel : nat) (s : list Z) (m : bytes) : list Z :=
  match fuel with
  | O => s
  | S fuel' =>
      match m with
      | [] => s
      | _ => absorb fuel' (absorb_block s (firstn rate m)) (skipn rate m)
      end
  end.

Fixpoint le_bytes (n : nat) (x : Z) : bytes :=
  match n with
  | O => []
  | S n' => (x mod 256) :: le_bytes n' (x / 256)
  end.

Definition squeeze (s : list Z) : bytes :=
  flat_map (le_bytes 8) (map (lane s) (seq 0 4)).

Definition sum256 (m : bytes) : bytes :=
  let p := pad m in
  squeeze (absorb (length p) (repeat 0 25%nat) p).

End Keccak.

Definition LegacyKeccak256 : bytes -> bytes := Keccak.sum256.

(** Text written as a Go string: the bytes of its characters. *)
Fixpoint bytes_of_string (s : string) : bytes :=
  match s with
  | EmptyString => []
  | String c rest => Z.of_nat (nat_of_ascii c) :: bytes_of_string rest
  end.

(** ** The buffers the specification talks about

    The specification describes a topic as the xor of two buffers padded
    with zeros to 32 bytes.  These definitions follow its words; the lemmas
    below compare them with [NewTopic] and [Name]. *)

Definition pad_topic (b : bytes) : bytes :=
  firstn TopicLength b ++ repeat 0 (TopicLength - length b).

Definition content_bytes (relatedContent : option bytes) : bytes :=
  match relatedContent with
  | Some rc => rc
  | None => []
  end.

(** The topic in the words of the specification: byte by byte the xor of
    the two inputs, each padded with zeros to 32 bytes (a byte that an
    input does not have counts as zero). *)
Definition xor_padded (a b : bytes) : Topic :=
  map (fun i => Z.lxor (nth i a 0) (nth i b 0)) (seq 0 TopicLength).

Definition truncate_content (relatedContent : option bytes) : option bytes :=
  option_map (firstn TopicLength) relatedContent.

Definition too_long (name : bytes) (relatedContent : option bytes) : bool :=
  (TopicLength <? length name)%nat
  || (TopicLength <? length (content_bytes relatedContent))%nat.

(** ** Test vectors *)

Definition decode_hex_text (s : string) : bytes :=
  fst (hex_Decode (bytes_of_string s)).

(** The name and the related content of [TestTopic]. *)
Definition test_name : bytes := bytes_of_string "test-topic".

Definition test_related : bytes :=
  decode_hex_text
    "abcdef0123456789abcdef0123456789abcdef0123456789abcdef0123456789".

Definition test_topic_hex : bytes :=
  bytes_of_string
    "dfa89c750e3108f9c2aeef0123456789abcdef0123456789abcdef0123456789".

(** An address and its checksummed text form. *)
Definition golden_address : Address :=
  decode_hex_text "5aaeb6053f3e94c9b9a09f33669435e7ef1beaed".

Definition golden_checksum : bytes :=
  bytes_of_string "5aAeb6053F3E94C9b9A09f33669435E7Ef1BeAed".

Definition test_feed : Feed :=
  mkFeed (fst (NewTopic test_name (Some test_related))) golden_address.

(** The messages of the two length errors, as [NewErrorf] formats them. *)
Definition put_length_error (got : nat) : error :=
  NewError ErrInvalidValue
    ("Incorrect slice size to serialize feed. Expected 52, got "
     ++ fmt_d got)%string.

Definition get_length_error (got : nat) : error :=
  NewError ErrInvalidValue
    ("Incorrect slice size to read feed. Expected 52, got "
     ++ fmt_d got)%string.

(** ** Well-formed hexadecimal text *)

Definition is_hexchar (c : byte) : bool :=
  match fromHexChar c with
  | Some _ => true
  | None => false
  end.

(** A string that [encoding/hex] decodes without error: an even number of
    characters, each of them a digit or a letter a-f or A-F. *)
Definition is_hex_string (h : bytes) : bool :=
  forallb is_hexchar h && Nat.even (length h).

Definition topic_decode_error : error :=
  FeedError ErrInvalidValue "Cannot decode topic".

(** A decoder for JSON string literals without escape sequences, enough to
    run [UnmarshalJSON] on examples: the text between two double quotes. *)
Definition json_plain_string (data : bytes) : bytes + error :=
  match data with
  | 34 :: rest =>
      match rev rest with
      | 34 :: body =>
          if forallb (fun c => negb ((c =? 34) || (c =? 92))) body
          then inl (rev body)
          else inr (LibError "encoding/json" "escape sequences not handled")
      | _ => inr (LibError "encoding/json" "unexpected end of JSON input")
      end
  | _ => inr (LibError "encoding/json" "invalid character")
  end.

Definition quoted (s : string) : bytes := 34 :: bytes_of_string s ++ [34].

(** ** The checksum rule of the address text form, in the words of the
    specification *)

(** The nibble of the hash that decides character [i]: the high nibble of
    byte [i/2] for an even [i], the low nibble for an odd one. *)
Definition hash_nibble (hash : bytes) (i : nat) : Z :=
  let b := nth (Nat.div i 2) hash 0 in
  if Nat.even i then b / 16 else b mod 16.

Definition is_hex_letter (c : byte) : bool := (97 <=? c) && (c <=? 102).

Definition is_hex_digit (c : byte) : bool := (48 <=? c) && (c <=? 57).

(** A letter is put in upper case when the nibble is 8 or more; every other
    character stays. *)
Definition checksum_char (c : byte) (nibble : Z) : byte :=
  if is_hex_letter c && (8 <=? nibble) then c - 32 else c.

(** ** A stand-in for the curve library

    The curve arithmetic of [btcec] is not part of this development; to
    run the signer on examples the two library calls are replaced by a pair
    that has the same shape: a compact signature of 65 bytes that starts with the header byte
    (27 plus the recovery id, plus 4 for a compressed key) and from which
    the other call finds the public key of the signer again. *)

Definition be_uint (b : bytes) : Z := le_uint (rev b).

Definition demo_SignCompact (key : PrivateKey) (hash : bytes)
  (isCompressedKey : bool) : bytes + error :=
  match pk_X (sk_PublicKey key), pk_Y (sk_PublicKey key) with
  | Some x, Some y =>
      inl ((if isCompressedKey then 31 else 27)
             :: be_fill 32 x ++ be_fill 32 y)
  | _, _ => inr (LibError "btcec" "invalid private key")
  end.

Definition demo_RecoverCompact (signature hash : bytes)
  : (PublicKey * bool) + error :=
  if negb (length signature =? 65)%nat
  then inr (LibError "btcec" "invalid compact signature size")
  else
    match signature with
    | v :: rest =>
        if (27 <=? v) && (v <? 35)
        then inl (mkPublicKey (Some (be_uint (firstn 32 rest)))
                              (Some (be_uint (skipn 32 rest))),
                  Z.testbit (v - 27) 2)
        else inr (LibError "btcec" "invalid compact signature recovery code")
    | [] => inr (LibError "btcec" "invalid compact signature size")
    end.

(** The base point of the curve, which is the public key of the private
    key 1. *)
Definition secp256k1_Gx : Z :=
  0x79BE667EF9DCBBAC55A06295CE870B07029BFCDB2DCE28D959F2815B16F81798.

Definition secp256k1_Gy : Z :=
  0x483ADA7726A3C4655DA4FBFC0E1108A8FD17B448A68554199C47D08FFB10D4B8.

Definition demo_key : PrivateKey :=
  mkPrivateKey (mkPublicKey (Some secp256k1_Gx) (Some secp256k1_Gy)) 1.

Definition demo_signer : GenericSigner := mkGenericSigner demo_key zero_address.

Definition demo_digest : Hash := LegacyKeccak256 test_name.

Definition demo_compact : bytes :=
  27 :: be_fill 32 secp256k1_Gx ++ be_fill 32 secp256k1_Gy.

(** What [Recover] hands to the library for a signature of this package:
    the last byte moved to the front. *)
Definition to_btcec (signature : bytes) : bytes :=
  skipn 64 signature ++ firstn 64 signature.

(** What [sign] makes of a compact signature of the library: the header
    byte moved to the end. *)
Definition from_btcec (compact : bytes) : bytes :=
  skipn 1 compact ++ firstn 1 compact.

Definition invalid_signature_length : error :=
  PlainError "invalid signature length".

(** ** Further operations of the identity model *)

(** The bytes of a buffer that stand before its first zero byte. *)
Fixpoint until_zero (b : bytes) : bytes :=
  match b with
  | [] => []
  | x :: rest => if x =? 0 then [] else x :: until_zero rest
  end.

(** [Feed.Hex]. *)
Definition Feed_Hex (f : Feed) : bytes :=
  let serializedData := repeat 0 feedLength in
  let '(serializedData, _) := binaryPut f serializedData in
  EncodeToString serializedData.

(** Modelled from the spec: the type [Values] of the query parameters is
    declared in a file that is not part of the sources; it is a mapping
    from keys to strings with unique, case-sensitive keys, where [Get]
    answers the empty string for a key that is not there and [Set]
    replaces what the key held. *)
Definition Values := list (string * list Z).

Fixpoint Values_Get (values : Values) (key : string) : bytes :=
  match values with
  | [] => []
  | (k, v) :: rest => if String.eqb k key then v else Values_Get rest key
  end.

Definition Values_Set (values : Values) (key : string) (value : bytes)
  : Values :=
  (key, value)
    :: filter (fun kv => negb (String.eqb (fst kv) key)) values.

Definition relatedcontent_error : error :=
  NewError ErrInvalidValue
    ("relatedcontent field must be a hex-encoded byte array exactly "
     ++ fmt_d ChunkAddressLength ++ " bytes long")%string.

Definition address_too_short : error := PlainError "address too short".

(** The first half of [Feed.FromValues]: the topic, from the key [topic] or
    from the keys [name] and [relatedcontent].  The feed after this half
    and the error on which the function returns. *)
Definition FromValues_topic (f : Feed) (values : Values)
  : Feed * option error :=
  let topic := Values_Get values "topic" in
  if negb (length topic =? 0)%nat then
    let '(t, err) := FromHex (Feed_Topic f) (Values_Get values "topic") in
    (mkFeed t (Feed_User f), err)
  else
    let name := Values_Get values "name" in
    let '(decoded, _) := DecodeString (Values_Get values "relatedcontent") in
    let relatedContent := slice_bytes decoded in
    if (0 <? length relatedContent)%nat
       && (length relatedContent <? ChunkAddressLength)%nat
    then (f, Some relatedcontent_error)
    else
      let relatedContent :=
        if (0 <? length relatedContent)%nat
        then firstn ChunkAddressLength relatedContent
        else relatedContent in
      let '(t, err) := NewTopic name (Some relatedContent) in
      (mkFeed t (Feed_User f), err).

(** [Feed.FromValues]: the feed after the call and the error returned. *)
Definition FromValues (f : Feed) (values : Values) : Feed * option error :=
  match FromValues_topic f values with
  | (f, Some err) => (f, Some err)
  | (f, None) =>
      let '(addr, err) := DecodeString (Values_Get values "user") in
      match err with
      | Some e => (f, Some (hex_error_to_error e))
      | None =>
          if (length (slice_bytes addr) <? AddressLength)%nat
          then (f, Some address_too_short)
          else (mkFeed (Feed_Topic f)
                       (copy (Feed_User f)
                             (firstn AddressLength (slice_bytes addr))),
                None)
      end
  end.

Section WithKeccakValues.

Variable LegacyKeccak256 : bytes -> bytes.

(** [Feed.AppendValues]: the mapping after the call; [None] is a panic of
    [Address.Hex]. *)
Definition AppendValues (f : Feed) (values : Values) : option Values :=
  let values := Values_Set values "topic" (Topic_Hex (Feed_Topic f)) in
  match Hex LegacyKeccak256 (Feed_User f) with
  | None => None
  | Some text => Some (Values_Set values "user" text)
  end.

End WithKeccakValues.

Section WithJSONText.

(** [json.Marshal(s)] and [json.Unmarshal(data, &s)] for a string [s]. *)
Variable json_Marshal_string : bytes -> bytes + error.
Variable json_Unmarshal_string : bytes -> bytes + error.

(** [Topic.MarshalJSON]. *)
Definition Topic_MarshalJSON (t : Topic) : bytes + error :=
  json_Marshal_string (Topic_Hex t).

(** [Topic.UnmarshalJSON]: the topic after the call and the error. *)
Definition Topic_UnmarshalJSON (t : Topic) (data : bytes)
  : Topic * option error :=
  match json_Unmarshal_string data with
  | inr err => (t, Some err)
  | inl hex => FromHex t hex
  end.

(** [Address.MarshalJSON]. *)
Definition Address_MarshalJSON (a : Address) : bytes + error :=
  json_Marshal_string (EncodeToString a).

End WithJSONText.

(** [json.Marshal] of a string made of characters that need no escape
    sequence: the text between two double quotes. *)
Definition json_plain_marshal (s : bytes) : bytes + error :=
  inl (34 :: s ++ [34]).

Section WithAddressOf.

Variable SignCompact : PrivateKey -> bytes -> bool -> bytes + error.
Variable RecoverCompact : bytes -> bytes -> (PublicKey * bool) + error.

(** [NewEthereumAddress], which is not part of the sources: the bytes of
    the address of a public key and an error. *)
Variable NewEthereumAddress : PublicKey -> bytes * option error.

(** [NewGenericSigner]: the constructor panics on the error of
    [NewEthereumAddress]. *)
Definition NewGenericSigner (privKey : PrivateKey) : result GenericSigner :=
  let '(addr, err) := NewEthereumAddress (sk_PublicKey privKey) in
  match err with
  | Some _ => Panic "NewEthereumAddress"
  | None => Ok (mkGenericSigner privKey (copy zero_address addr))
  end.

(** [GenericSigner.Address]. *)
Definition Signer_Address (s : GenericSigner) : Address := address s.

(** [getUserAddr]: the error of [NewEthereumAddress] is dropped. *)
Definition getUserAddr (digest : Hash) (signature : Signature)
  : result Address :=
  match Recover RecoverCompact signature digest with
  | Err err => Err err
  | Panic why => Panic why
  | Ok pub =>
      let '(a, _) := NewEthereumAddress pub in
      Ok (copy zero_address a)
  end.

End WithAddressOf.

(** An address function for the examples: [PubkeyToAddress] with the hash
    written out above. *)
Definition demo_NewEthereumAddress (p : PublicKey) : bytes * option error :=
  match PubkeyToAddress LegacyKeccak256 p with
  | Ok a => (a, None)
  | _ => ([], Some (PlainError "invalid public key"))
  end.

Definition demo_values : Values :=
  [("name"%string, test_name);
   ("relatedcontent"%string, EncodeToString test_related);
   ("user"%string, golden_checksum)].

(** The test that every element of a list is a byte. *)
Definition all_bytes (b : bytes) : bool :=
  forallb (fun v => (0 <=? v) && (v <? 256)) b.

(** The signer that [NewGenericSigner] builds for the key of the
    examples. *)
Definition demo_address : Address :=
  copy zero_address (fst (demo_NewEthereumAddress (sk_PublicKey demo_key))).

Definition demo_generic_signer : GenericSigner :=
  mkGenericSigner demo_key demo_address.

(** * Properties *)

(** ** Lists and the built-in [copy] *)

Lemma length_copy (dst src : bytes) : length (copy dst src) = length dst.
Proof.
  unfold copy. rewrite length_app, length_firstn, length_skipn. lia.
Qed.

Lemma nth_copy (dst src : bytes) (i : nat) (d : byte) :
  nth i (copy dst src) d =
  if ((i <? length src) && (i <? length dst))%nat then nth i src d
  else nth i dst d.
Proof.
  unfold copy.
  destruct (Nat.ltb_spec i (length src)) as [Hs | Hs];
    destruct (Nat.ltb_spec i (length dst)) as [Hd | Hd]; simpl.
  - rewrite app_nth1 by (rewrite length_firstn; lia).
    rewrite nth_firstn.
    destruct (Nat.ltb_spec i (length dst)); [reflexivity | lia].
  - rewrite (nth_overflow dst) by lia.
    apply nth_overflow.
    rewrite length_app, length_firstn, length_skipn. lia.
  - rewrite app_nth2 by (rewrite length_firstn; lia).
    rewrite length_firstn, nth_skipn. f_equal. lia.
  - rewrite (nth_overflow dst) by lia.
    apply nth_overflow.
    rewrite length_app, length_firstn, length_skipn. lia.
Qed.

Lemma copy_same_length (dst src : bytes) :
  length src = length dst -> copy dst src = src.
Proof.
  intros H. unfold copy.
  rewrite <- H, firstn_all, H, skipn_all. apply app_nil_r.
Qed.

Lemma length_xor_prefix (a b : bytes) :
  length (xor_prefix a b) = Nat.min (length a) (length b).
Proof.
  revert b. induction a as [| x a IH]; intros [| y b]; simpl; auto.
Qed.

Lemma nth_xor_prefix (a b : bytes) (i : nat) :
  (i < length a)%nat -> (i < length b)%nat ->
  nth i (xor_prefix a b) 0 = Z.lxor (nth i a 0) (nth i b 0).
Proof.
  revert b i. induction a as [| x a IH]; intros [| y b] [| i] Ha Hb;
    simpl in *; try lia; auto.
  apply IH; lia.
Qed.

Lemma length_XORBytes (dst a b : bytes) : length (XORBytes dst a b) = length dst.
Proof. apply length_copy. Qed.

(** Xor-ing a buffer in place with a shorter one is the byte-wise xor with
    the shorter one padded by zeros. *)
Lemma nth_XORBytes_self (t dst b : bytes) (i : nat) :
  length dst = length t -> (length b <= length t)%nat ->
  (forall j, (length b <= j)%nat -> nth j dst 0 = nth j t 0) ->
  nth i (XORBytes dst t b) 0 = Z.lxor (nth i t 0) (nth i b 0).
Proof.
  intros Hd Hb Hrest. unfold XORBytes.
  rewrite nth_copy, length_xor_prefix.
  destruct (Nat.ltb_spec i (Nat.min (length t) (length b))) as [Hi | Hi];
    destruct (Nat.ltb_spec i (length dst)) as [Hi' | Hi']; simpl.
  - apply nth_xor_prefix; lia.
  - lia.
  - rewrite Hrest by lia.
    rewrite (nth_overflow b) by lia. now rewrite Z.lxor_0_r.
  - rewrite (nth_overflow dst), (nth_overflow t), (nth_overflow b) by lia.
    reflexivity.
Qed.

Lemma length_pad_topic (b : bytes) : length (pad_topic b) = TopicLength.
Proof.
  unfold pad_topic. rewrite length_app, length_firstn, repeat_length. lia.
Qed.

Lemma nth_pad_topic (b : bytes) (i : nat) :
  nth i (pad_topic b) 0 = if (i <? TopicLength)%nat then nth i b 0 else 0.
Proof.
  unfold pad_topic.
  destruct (Nat.ltb_spec i TopicLength) as [Hi | Hi].
  - destruct (Nat.lt_ge_cases i (length b)) as [Hb | Hb].
    + rewrite app_nth1 by (rewrite length_firstn; lia).
      rewrite nth_firstn.
      destruct (Nat.ltb_spec i TopicLength); [reflexivity | lia].
    + rewrite app_nth2 by (rewrite length_firstn; lia).
      rewrite (nth_overflow b) by lia. apply nth_repeat.
  - apply nth_overflow.
    rewrite length_app, length_firstn, repeat_length. lia.
Qed.

(** ** Topic derivation *)

Lemma copy_zero_topic (src : bytes) :
  copy zero_topic (firstn TopicLength src) = pad_topic src.
Proof.
  apply (nth_ext _ _ 0 0).
  - rewrite length_copy, length_pad_topic. apply repeat_length.
  - intros i _. rewrite nth_copy, nth_pad_topic, nth_firstn, length_firstn.
    unfold zero_topic. rewrite repeat_length.
    destruct (Nat.ltb_spec i TopicLength) as [Hi | Hi].
    + destruct (Nat.ltb_spec i (Nat.min TopicLength (length src)));
        cbn [andb].
      * reflexivity.
      * rewrite (nth_overflow src) by lia. apply nth_repeat.
    + rewrite andb_false_r. apply nth_overflow. rewrite repeat_length. lia.
Qed.

Lemma firstn_clip (b : bytes) :
  firstn (if (TopicLength <? length b)%nat then TopicLength else length b) b
  = firstn TopicLength b.
Proof.
  destruct (Nat.ltb_spec TopicLength (length b)); [reflexivity |].
  rewrite firstn_all, firstn_all2; auto.
Qed.

(** The topic computed by [NewTopic], with the error left aside. *)
Lemma NewTopic_fst (name : bytes) (relatedContent : option bytes) :
  fst (NewTopic name relatedContent) =
  XORBytes (pad_topic (content_bytes relatedContent))
           (pad_topic (content_bytes relatedContent))
           (firstn TopicLength name).
Proof.
  unfold NewTopic.
  assert (Hname : forall (t : Topic) (e : option error),
             fst (let '(nameLength, err) :=
                    if (TopicLength <? length name)%nat
                    then (TopicLength, Some ErrTopicTooLong)
                    else (length name, e) in
                  (XORBytes t t (firstn nameLength name), err))
             = XORBytes t t (firstn TopicLength name)).
  { intros t e. rewrite <- (firstn_clip name).
    destruct (TopicLength <? length name)%nat; reflexivity. }
  destruct relatedContent as [rc |]; simpl content_bytes.
  - rewrite <- copy_zero_topic, <- (firstn_clip rc).
    destruct (TopicLength <? length rc)%nat; cbv zeta; apply Hname.
  - replace (pad_topic []) with zero_topic by reflexivity.
    cbv zeta. apply Hname.
Qed.

Lemma NewTopic_snd (name : bytes) (relatedContent : option bytes) :
  snd (NewTopic name relatedContent) =
  if too_long name relatedContent then Some ErrTopicTooLong else None.
Proof.
  unfold NewTopic, too_long.
  destruct relatedContent as [rc |]; simpl content_bytes; cbv zeta.
  - destruct (TopicLength <? length rc)%nat;
      destruct (TopicLength <? length name)%nat; reflexivity.
  - change (TopicLength <? length (@nil byte))%nat with false.
    destruct (TopicLength <? length name)%nat; reflexivity.
Qed.

Lemma NewTopic_wf (name : bytes) (relatedContent : option bytes) :
  wf_topic (fst (NewTopic name relatedContent)).
Proof.
  unfold wf_topic. rewrite NewTopic_fst, length_XORBytes. apply length_pad_topic.
Qed.

(** [NewTopic] refines the words of the specification: the topic is the
    byte-wise xor of the two inputs, cut and padded to 32 bytes. *)
Lemma nth_NewTopic (name : bytes) (relatedContent : option bytes) (i : nat) :
  nth i (fst (NewTopic name relatedContent)) 0 =
  Z.lxor (nth i (pad_topic (content_bytes relatedContent)) 0)
         (nth i (pad_topic name) 0).
Proof.
  rewrite NewTopic_fst.
  rewrite nth_XORBytes_self; auto.
  - f_equal. rewrite nth_pad_topic, nth_firstn.
    destruct (i <? TopicLength)%nat; reflexivity.
  - rewrite length_pad_topic, length_firstn. lia.
Qed.

Lemma pad_topic_truncated (b : bytes) :
  pad_topic (firstn TopicLength b) = pad_topic b.
Proof.
  unfold pad_topic. rewrite firstn_firstn, Nat.min_id, length_firstn.
  f_equal. f_equal. lia.
Qed.

Lemma content_bytes_truncated (relatedContent : option bytes) :
  content_bytes (truncate_content relatedContent)
  = firstn TopicLength (content_bytes relatedContent).
Proof. destruct relatedContent; reflexivity. Qed.

Lemma too_long_truncated (name : bytes) (relatedContent : option bytes) :
  too_long (firstn TopicLength name) (truncate_content relatedContent) = false.
Proof.
  unfold too_long. rewrite content_bytes_truncated, !length_firstn.
  apply orb_false_iff; split; apply Nat.ltb_ge; lia.
Qed.

Lemma nth_xor_padded (a b : bytes) (i : nat) :
  (i < TopicLength)%nat ->
  nth i (xor_padded a b) 0 = Z.lxor (nth i a 0) (nth i b 0).
Proof.
  intros Hi. unfold xor_padded.
  rewrite (nth_indep _ 0 (Z.lxor (nth 0 a 0) (nth 0 b 0)))
    by (rewrite length_map, length_seq; exact Hi).
  rewrite (map_nth (fun k => Z.lxor (nth k a 0) (nth k b 0)) _ 0%nat).
  now rewrite seq_nth by exact Hi.
Qed.

(** C7: [NewTopic] cuts a name or a related content longer than 32 bytes
    to its first 32 bytes.  The topic it returns has 32 bytes and is, byte
    by byte, the xor of the first 32 bytes of the related content and the
    first 32 bytes of the name, each padded with zeros; it is the topic of
    the truncated inputs, for which no error is reported.  Next to it the
    error [ErrTopicTooLong] is returned exactly when one of the two
    inputs is longer than 32 bytes; otherwise the error is nil. *)
Theorem NewTopic_truncates_and_warns
  (name : bytes) (relatedContent : option bytes) :
  let short_name := firstn TopicLength name in
  let short_content := truncate_content relatedContent in
  fst (NewTopic name relatedContent) = fst (NewTopic short_name short_content)
  /\ fst (NewTopic name relatedContent)
     = xor_padded (firstn TopicLength (content_bytes relatedContent))
                  (firstn TopicLength name)
  /\ wf_topic (fst (NewTopic name relatedContent))
  /\ snd (NewTopic short_name short_content) = None
  /\ snd (NewTopic name relatedContent) =
     if ((TopicLength <? length name)
         || (TopicLength <? length (content_bytes relatedContent)))%nat
     then Some ErrTopicTooLong else None.
Proof.
  cbv zeta. split; [| split; [| split; [| split]]].
  - rewrite !NewTopic_fst, content_bytes_truncated, pad_topic_truncated.
    now rewrite firstn_firstn, Nat.min_id.
  - apply (nth_ext _ _ 0 0).
    + rewrite (NewTopic_wf name relatedContent).
      unfold xor_padded. now rewrite length_map, length_seq.
    + intros i Hi. rewrite (NewTopic_wf name relatedContent) in Hi.
      rewrite nth_NewTopic, nth_xor_padded, !nth_pad_topic, !nth_firstn
        by exact Hi.
      destruct (Nat.ltb_spec i TopicLength); [reflexivity | lia].
  - apply NewTopic_wf.
  - now rewrite NewTopic_snd, too_long_truncated.
  - apply NewTopic_snd.
Qed.

(** The topic of a name and of a related content of 35 bytes. *)
Example NewTopic_truncates_example :
  NewTopic test_name (Some (test_related ++ [1; 2; 3]))
  = (decode_hex_text
       "dfa89c750e3108f9c2aeef0123456789abcdef0123456789abcdef0123456789",
     Some ErrTopicTooLong).
Proof. vm_compute. reflexivity. Qed.

Lemma IndexByte_first_zero (l r : bytes) :
  Forall (fun b => b <> 0) l ->
  IndexByte (l ++ 0 :: r) 0 = Z.of_nat (length l).
Proof.
  induction 1 as [| x l Hx Hl IH]; [reflexivity |].
  cbn [app IndexByte length].
  destruct (Z.eqb_spec x 0) as [E | _]; [contradiction |].
  cbv zeta. rewrite IH, Nat2Z.inj_succ.
  destruct (_ <? 0) eqn:E; [apply Z.ltb_lt in E |]; lia.
Qed.

Lemma pad_topic_short (name : bytes) :
  (length name < TopicLength)%nat ->
  pad_topic name = name ++ 0 :: repeat 0 (TopicLength - length name - 1).
Proof.
  intros H. unfold pad_topic. rewrite firstn_all2 by lia. f_equal.
  destruct (TopicLength - length name)%nat as [| k] eqn:E; [lia |].
  replace (S k - 1)%nat with k by lia. reflexivity.
Qed.

(** What [Name] cuts at the first zero byte: the topic xor-ed with the
    related content. *)
Lemma Name_buffer (name : bytes) (relatedContent : option bytes) :
  let t := fst (NewTopic name relatedContent) in
  match relatedContent with
  | Some rc =>
      XORBytes t t
        (firstn (if (TopicLength <? length rc)%nat then TopicLength
                 else length rc) rc)
  | None => t
  end = pad_topic name.
Proof.
  cbv zeta.
  apply (nth_ext _ _ 0 0).
  - rewrite length_pad_topic.
    destruct relatedContent; [rewrite length_XORBytes |]; apply NewTopic_wf.
  - intros i _.
    destruct relatedContent as [rc |].
    + rewrite firstn_clip, nth_XORBytes_self; auto.
      * rewrite nth_NewTopic. cbn [content_bytes].
        rewrite !nth_pad_topic, nth_firstn.
        destruct (i <? TopicLength)%nat.
        -- now rewrite Z.lxor_comm, <- Z.lxor_assoc, Z.lxor_nilpotent, Z.lxor_0_l.
        -- reflexivity.
      * rewrite length_firstn.
        pose proof (NewTopic_wf name (Some rc)) as W. unfold wf_topic in W. lia.
    + rewrite nth_NewTopic. cbn [content_bytes].
      rewrite (nth_pad_topic []).
      destruct (i <? TopicLength)%nat; destruct i; apply Z.lxor_0_l.
Qed.

(** C2: for a name without zero byte and shorter than 32 bytes, and a
    related content of at most 32 bytes (or nil), [Name] applied to the
    topic built by [NewTopic] with the same related content gives the name
    back. *)
Theorem Name_NewTopic_roundtrip (name : bytes) (relatedContent : option bytes) :
  Forall (fun b => b <> 0) name ->
  (length name < TopicLength)%nat ->
  (length (content_bytes relatedContent) <= TopicLength)%nat ->
  Name (fst (NewTopic name relatedContent)) relatedContent = name.
Proof.
  intros Hnz Hlen _. unfold Name.
  rewrite (Name_buffer name relatedContent).
  rewrite pad_topic_short by assumption.
  rewrite IndexByte_first_zero by assumption.
  destruct (Z.ltb_spec (Z.of_nat (length name)) 0); [lia |].
  rewrite Nat2Z.id.
  rewrite firstn_app, firstn_all, Nat.sub_diag. cbn [firstn]. apply app_nil_r.
Qed.

Lemma Name_NewTopic_roundtrip_witness :
  (length test_name < TopicLength)%nat
  /\ Name (fst (NewTopic test_name (Some test_related))) (Some test_related)
     = test_name.
Proof.
  split; [vm_compute; lia |].
  apply (Name_NewTopic_roundtrip test_name (Some test_related)).
  - repeat constructor; discriminate.
  - vm_compute; lia.
  - vm_compute; lia.
Defined.

(** The topic of [TestTopic] has the text form the test expects. *)
Example TestTopic_hex :
  Topic_Hex (fst (NewTopic test_name (Some test_related))) = test_topic_hex.
Proof. vm_compute. reflexivity. Qed.

(** ** Feed serialisation *)

Lemma copy_at_exact (buf src : bytes) (lo hi : nat) :
  (lo <= hi)%nat -> (hi <= length buf)%nat -> length src = (hi - lo)%nat ->
  copy_at buf lo hi src = firstn lo buf ++ src ++ skipn hi buf.
Proof.
  intros Hlo Hhi Hsrc. unfold copy_at.
  rewrite copy_same_length; [reflexivity |].
  rewrite length_firstn, length_skipn. lia.
Qed.

Lemma binaryPut_ok (f : Feed) (buf : bytes) :
  wf_feed f -> length buf = feedLength ->
  binaryPut f buf = (Feed_Topic f ++ Feed_User f, None).
Proof.
  intros [Ht Hu] Hbuf. unfold binaryPut, wf_topic, wf_address in *.
  rewrite Hbuf, Nat.eqb_refl. cbn [negb]. cbv zeta. f_equal.
  rewrite (firstn_all2 (n := TopicLength) (Feed_Topic f)) by lia.
  rewrite (copy_at_exact buf) by (unfold feedLength in *; lia).
  cbn [firstn app].
  rewrite copy_at_exact;
    rewrite ?length_app, ?length_skipn; unfold feedLength in *; try lia.
  rewrite firstn_app, Ht, firstn_all2 by lia.
  rewrite Nat.add_0_l, Nat.sub_diag. cbn [firstn]. rewrite app_nil_r.
  rewrite skipn_all2; [now rewrite app_nil_r |].
  rewrite length_app, length_skipn. lia.
Qed.

Lemma binaryGet_ok (recv : Feed) (t : Topic) (a : Address) :
  wf_feed recv -> wf_topic t -> wf_address a ->
  binaryGet recv (t ++ a) = (mkFeed t a, None).
Proof.
  intros [Ht' Hu'] Ht Hu. unfold binaryGet, wf_topic, wf_address in *.
  rewrite length_app, Ht, Hu. unfold feedLength. rewrite Nat.eqb_refl.
  cbn [negb]. cbv zeta. f_equal.
  cbn [skipn]. rewrite Nat.add_0_l.
  rewrite firstn_app, Ht, Nat.sub_diag, firstn_all2 by lia.
  cbn [firstn]. rewrite app_nil_r.
  rewrite skipn_app, Ht, Nat.sub_diag, skipn_all2 by lia.
  cbn [skipn app]. rewrite firstn_all2 by lia.
  rewrite !copy_same_length by congruence. reflexivity.
Qed.

Lemma binaryPut_bad_length (f : Feed) (buf : bytes) :
  length buf <> feedLength ->
  binaryPut f buf = (buf, Some (put_length_error (length buf))).
Proof.
  intros H. unfold binaryPut.
  destruct (Nat.eqb_spec (length buf) feedLength); [contradiction |].
  reflexivity.
Qed.

Lemma binaryGet_bad_length (f : Feed) (buf : bytes) :
  length buf <> feedLength ->
  binaryGet f buf = (f, Some (get_length_error (length buf))).
Proof.
  intros H. unfold binaryGet.
  destruct (Nat.eqb_spec (length buf) feedLength); [contradiction |].
  reflexivity.
Qed.

(** C3: on a buffer of 52 bytes [binaryPut] writes the topic followed by
    the user address and [binaryGet] reads exactly that feed back, whatever
    the receiving feed held before; on a buffer of any other length both
    return an [ErrInvalidValue] error whose message names the expected
    length 52 and the actual length, and the buffer, respectively the
    receiving feed, is left as it was. *)
Theorem Feed_binaryPut_binaryGet (f recv : Feed) (buf : bytes) :
  wf_feed f -> wf_feed recv ->
  (length buf = feedLength ->
   binaryPut f buf = (Feed_Topic f ++ Feed_User f, None)
   /\ length (fst (binaryPut f buf)) = 52%nat
   /\ binaryGet recv (fst (binaryPut f buf)) = (f, None))
  /\ (length buf <> feedLength ->
      binaryPut f buf = (buf, Some (put_length_error (length buf)))
      /\ binaryGet recv buf = (recv, Some (get_length_error (length buf)))).
Proof.
  intros Hf Hrecv. split.
  - intros Hbuf. rewrite (binaryPut_ok f buf Hf Hbuf). cbn [fst].
    destruct Hf as [Ht Hu]. repeat split.
    + rewrite length_app, Ht, Hu. reflexivity.
    + rewrite (binaryGet_ok recv _ _ Hrecv Ht Hu). now destruct f.
  - intros Hbuf. split.
    + now apply binaryPut_bad_length.
    + now apply binaryGet_bad_length.
Qed.

Lemma Feed_binaryPut_binaryGet_witness :
  binaryGet (mkFeed zero_topic zero_address)
            (fst (binaryPut test_feed (repeat 0 52%nat)))
  = (test_feed, None)
  /\ binaryPut test_feed [1; 2; 3]
     = ([1; 2; 3],
        Some (FeedError ErrInvalidValue
                "Incorrect slice size to serialize feed. Expected 52, got 3"))
  /\ binaryGet test_feed [1; 2; 3]
     = (test_feed,
        Some (FeedError ErrInvalidValue
                "Incorrect slice size to read feed. Expected 52, got 3")).
Proof.
  assert (Hf : wf_feed test_feed) by (split; reflexivity).
  assert (Hz : wf_feed (mkFeed zero_topic zero_address))
    by (split; reflexivity).
  split; [| split].
  - apply (Feed_binaryPut_binaryGet test_feed _ (repeat 0 52%nat) Hf Hz).
    reflexivity.
  - apply (Feed_binaryPut_binaryGet test_feed _ [1; 2; 3] Hf Hz).
    vm_compute; discriminate.
  - apply (Feed_binaryPut_binaryGet test_feed test_feed [1; 2; 3] Hf Hf).
    vm_compute; discriminate.
Defined.

(** ** Hexadecimal decoding *)

Lemma list_pair_ind (P : bytes -> Prop) :
  P [] -> (forall x, P [x]) -> (forall x y l, P l -> P (x :: y :: l)) ->
  forall l, P l.
Proof.
  intros H0 H1 H2.
  assert (H : forall l, P l /\ forall x, P (x :: l)).
  { induction l as [| y l [IH1 IH2]]; split; auto. }
  intros l. apply H.
Qed.

(** [hex.Decode] reports no error exactly on well-formed text. *)
Lemma hex_Decode_ok_iff (h : bytes) :
  snd (hex_Decode h) = None <-> is_hex_string h = true.
Proof.
  unfold is_hex_string.
  induction h as [| x | x y l IH] using list_pair_ind.
  - simpl. tauto.
  - cbn [hex_Decode forallb length Nat.even is_hexchar].
    unfold is_hexchar. destruct (fromHexChar x); simpl; split; discriminate.
  - cbn [hex_Decode forallb length Nat.even]. unfold is_hexchar at 1 2.
    destruct (fromHexChar x); [| simpl; split; discriminate].
    destruct (fromHexChar y); [| simpl; split; discriminate].
    destruct (hex_Decode l) as [out e]. cbn [snd andb] in *. exact IH.
Qed.

Lemma hex_Decode_length (h : bytes) :
  snd (hex_Decode h) = None ->
  length (fst (hex_Decode h)) = Nat.div (length h) 2.
Proof.
  induction h as [| x | x y l IH] using list_pair_ind.
  - reflexivity.
  - cbn [hex_Decode]. destruct (fromHexChar x); discriminate.
  - cbn [hex_Decode].
    destruct (fromHexChar x); [| discriminate].
    destruct (fromHexChar y); [| discriminate].
    destruct (hex_Decode l) as [out e]. cbn [fst snd length] in *.
    intros He. rewrite (IH He).
    change (S (S (length l))) with (2 + length l)%nat.
    replace (2 + length l)%nat with (1 * 2 + length l)%nat by lia.
    rewrite Nat.div_add_l by lia. lia.
Qed.

Lemma DecodeString_bytes (h : bytes) :
  slice_bytes (fst (DecodeString h)) = fst (hex_Decode h)
  /\ snd (DecodeString h) = snd (hex_Decode h).
Proof.
  unfold DecodeString, slice_bytes.
  destruct (hex_Decode h) as [out e]. cbn [fst snd backing slen]. split; auto.
  rewrite firstn_app, firstn_all, Nat.sub_diag. cbn [firstn]. apply app_nil_r.
Qed.

(** After a successful decoding the slice returned by [DecodeString] has
    no spare capacity. *)
Lemma DecodeString_cap (h : bytes) :
  snd (DecodeString h) = None ->
  slice_cap (fst (DecodeString h)) = length (fst (hex_Decode h))
  /\ backing (fst (DecodeString h)) = fst (hex_Decode h).
Proof.
  intros He.
  assert (He' : snd (hex_Decode h) = None)
    by (rewrite <- (proj2 (DecodeString_bytes h)); exact He).
  pose proof (hex_Decode_length h He') as Hlen.
  unfold DecodeString, slice_cap in *.
  destruct (hex_Decode h) as [out e]. cbn [fst snd backing] in *.
  rewrite Hlen, Nat.sub_diag. cbn [repeat]. rewrite app_nil_r. auto.
Qed.

(** ** Topic text form *)

Lemma FromHex_unfold (t : Topic) (h : bytes) :
  FromHex t h =
  match snd (hex_Decode h) with
  | Some _ => (t, Some topic_decode_error)
  | None =>
      if (length (fst (hex_Decode h)) =? TopicLength)%nat
      then (copy t (fst (hex_Decode h)), None)
      else (t, Some topic_decode_error)
  end.
Proof.
  unfold FromHex.
  destruct (DecodeString_bytes h) as [Hb He].
  destruct (DecodeString h) as [bs err]. cbn [fst snd] in *.
  rewrite Hb, He.
  destruct (snd (hex_Decode h)); cbn [orb]; [reflexivity |].
  destruct (length (fst (hex_Decode h)) =? TopicLength)%nat; reflexivity.
Qed.

(** C10: [FromHex] is atomic on error.  When the text is not well-formed
    hexadecimal, or decodes to a number of bytes other than 32, the call
    returns the [ErrInvalidValue] error and the topic keeps its bytes; the
    topic is written, with the 32 decoded bytes, only when both checks
    pass. *)
Theorem FromHex_atomic_on_error (t : Topic) (h : bytes) :
  wf_topic t ->
  (is_hex_string h = false \/ length (fst (hex_Decode h)) <> TopicLength ->
   FromHex t h = (t, Some topic_decode_error))
  /\ (is_hex_string h = true /\ length (fst (hex_Decode h)) = TopicLength ->
      FromHex t h = (fst (hex_Decode h), None)).
Proof.
  intros Ht. rewrite FromHex_unfold. split.
  - intros [Hbad | Hlen].
    + destruct (snd (hex_Decode h)) eqn:E; [reflexivity |].
      apply hex_Decode_ok_iff in E. congruence.
    + destruct (snd (hex_Decode h)); [reflexivity |].
      destruct (Nat.eqb_spec (length (fst (hex_Decode h))) TopicLength);
        [contradiction | reflexivity].
  - intros [Hok Hlen].
    apply hex_Decode_ok_iff in Hok. rewrite Hok, Hlen, Nat.eqb_refl.
    rewrite copy_same_length; [reflexivity |].
    unfold wf_topic in Ht. congruence.
Qed.

Lemma FromHex_atomic_on_error_witness :
  FromHex test_related (bytes_of_string "0xzz")
  = (test_related, Some topic_decode_error)
  /\ FromHex test_related (bytes_of_string "abcd")
     = (test_related, Some topic_decode_error)
  /\ FromHex zero_topic test_topic_hex
     = (fst (NewTopic test_name (Some test_related)), None).
Proof.
  assert (Hr : wf_topic test_related) by reflexivity.
  assert (Hz : wf_topic zero_topic) by reflexivity.
  split; [| split].
  - apply (FromHex_atomic_on_error test_related _ Hr). left. reflexivity.
  - apply (FromHex_atomic_on_error test_related _ Hr). right.
    vm_compute. discriminate.
  - apply (FromHex_atomic_on_error zero_topic test_topic_hex Hz).
    split; reflexivity.
Defined.

(** ** Address: JSON form *)

Section UnmarshalJSON.

Variable json_Unmarshal_string : bytes -> bytes + error.

Lemma Address_UnmarshalJSON_string (a : Address) (data s : bytes) :
  json_Unmarshal_string data = inl s ->
  Address_UnmarshalJSON json_Unmarshal_string a data =
  match snd (hex_Decode s) with
  | Some e => Err (hex_error_to_error e)
  | None =>
      if (AddressLength <=? length (fst (hex_Decode s)))%nat
      then Ok (copy a (firstn AddressLength (fst (hex_Decode s))))
      else Panic "slice bounds out of range"
  end.
Proof.
  intros Hs. unfold Address_UnmarshalJSON. rewrite Hs.
  pose proof (DecodeString_cap s) as Hcap.
  destruct (DecodeString_bytes s) as [_ He].
  destruct (DecodeString s) as [v err]. cbn [fst snd] in *.
  rewrite <- He. destruct err as [e |]; [reflexivity |].
  destruct (Hcap eq_refl) as [Hc Hb].
  unfold slice_upto. rewrite Hc, Hb.
  destruct (AddressLength <=? length (fst (hex_Decode s)))%nat; reflexivity.
Qed.

(** C9: [Address.UnmarshalJSON] is not total.  When the JSON value is a
    string that decodes from hexadecimal without error to fewer than 20
    bytes, the slice expression [v[:AddressLength]] is out of range and
    the call panics.  An error is returned only on malformed JSON (the
    decoder's error) or on malformed hexadecimal text. *)
Theorem Address_UnmarshalJSON_short_value_panics
  (a : Address) (data s : bytes) :
  json_Unmarshal_string data = inl s ->
  is_hex_string s = true ->
  (length (fst (hex_Decode s)) < AddressLength)%nat ->
  Address_UnmarshalJSON json_Unmarshal_string a data
  = Panic "slice bounds out of range"
  /\ forall (a' : Address) (data' : bytes) (e : error),
      Address_UnmarshalJSON json_Unmarshal_string a' data' = Err e ->
      json_Unmarshal_string data' = inr e
      \/ exists s', json_Unmarshal_string data' = inl s'
                    /\ is_hex_string s' = false.
Proof.
  intros Hs Hhex Hlen. split.
  - rewrite (Address_UnmarshalJSON_string a data s Hs).
    apply hex_Decode_ok_iff in Hhex. rewrite Hhex.
    destruct (Nat.leb_spec AddressLength (length (fst (hex_Decode s))));
      [lia | reflexivity].
  - intros a' data' e He.
    destruct (json_Unmarshal_string data') as [s' | e'] eqn:Hj.
    + right. exists s'. split; [reflexivity |].
      rewrite (Address_UnmarshalJSON_string a' data' s' Hj) in He.
      destruct (snd (hex_Decode s')) eqn:Hd.
      * destruct (is_hex_string s') eqn:Hh; [| reflexivity].
        apply hex_Decode_ok_iff in Hh. congruence.
      * destruct (AddressLength <=? length (fst (hex_Decode s')))%nat;
          discriminate.
    + left. unfold Address_UnmarshalJSON in He. rewrite Hj in He.
      congruence.
Qed.

(** With 20 decoded bytes or more the first 20 become the address. *)
Lemma Address_UnmarshalJSON_long_value (a : Address) (data s : bytes) :
  wf_address a ->
  json_Unmarshal_string data = inl s ->
  is_hex_string s = true ->
  (AddressLength <= length (fst (hex_Decode s)))%nat ->
  Address_UnmarshalJSON json_Unmarshal_string a data
  = Ok (firstn AddressLength (fst (hex_Decode s))).
Proof.
  intros Ha Hs Hhex Hlen.
  rewrite (Address_UnmarshalJSON_string a data s Hs).
  apply hex_Decode_ok_iff in Hhex. rewrite Hhex.
  destruct (Nat.leb_spec AddressLength (length (fst (hex_Decode s))));
    [| lia].
  rewrite copy_same_length; [reflexivity |].
  rewrite length_firstn. unfold wf_address in Ha. lia.
Qed.

End UnmarshalJSON.

Lemma Address_UnmarshalJSON_short_value_panics_witness :
  Address_UnmarshalJSON json_plain_string zero_address (quoted "00ff")
  = Panic "slice bounds out of range".
Proof.
  apply (Address_UnmarshalJSON_short_value_panics
           json_plain_string zero_address (quoted "00ff")
           (bytes_of_string "00ff")).
  - reflexivity.
  - reflexivity.
  - vm_compute. lia.
Defined.

(** ** Address: checksummed text form *)

Lemma length_set_nth (l : bytes) (i : nat) (v : byte) :
  length (set_nth l i v) = length l.
Proof.
  revert i. induction l as [| x l IH]; intros [| i]; simpl; auto.
Qed.

Lemma nth_set_nth (l : bytes) (i j : nat) (v : byte) :
  (i < length l)%nat ->
  nth j (set_nth l i v) 0 = if (j =? i)%nat then v else nth j l 0.
Proof.
  revert i j. induction l as [| x l IH]; intros [| i] [| j] H;
    simpl in *; try lia; auto.
  apply IH. lia.
Qed.

Lemma length_EncodeToString (src : bytes) :
  length (EncodeToString src) = (2 * length src)%nat.
Proof.
  induction src as [| v src IH]; simpl; [reflexivity | rewrite IH; lia].
Qed.

Lemma hexdigit_cases (n : Z) : In (hexdigit n) (0 :: hextable).
Proof.
  unfold hexdigit.
  destruct (nth_in_or_default (Z.to_nat n) hextable 0) as [H | H].
  - right. exact H.
  - left. symmetry. exact H.
Qed.

(** Every character of the lower-case form is a digit or a letter a-f (or
    the filler 0 when the input is not a byte); the comparison with '9'
    that the code makes singles out the letters. *)
Lemma EncodeToString_chars (src : bytes) (i : nat) :
  let c := nth i (EncodeToString src) 0 in
  (c >? 57) = is_hex_letter c
  /\ (is_hex_letter c = true -> (c - 32) mod 256 = c - 32).
Proof.
  cbv zeta.
  assert (H : In (nth i (EncodeToString src) 0) (0 :: hextable)).
  { revert i. induction src as [| v src IH]; intros i.
    - left. destruct i; reflexivity.
    - destruct i as [| [| i]]; cbn [EncodeToString nth].
      + apply hexdigit_cases.
      + apply hexdigit_cases.
      + apply IH. }
  unfold hextable in H.
  repeat (destruct H as [H | H];
          [rewrite <- H; split;
           [reflexivity
           | intros E; first [reflexivity | vm_compute in E; discriminate E]]
          |]).
  destruct H.
Qed.

Section HexChecksum.

Variable keccak : bytes -> bytes.

Lemma Hex_step_spec (hash result : bytes) (i : nat) (c : byte) :
  (i < length result)%nat -> (Nat.div i 2 < length hash)%nat ->
  nth i result 0 = c ->
  (c >? 57) = is_hex_letter c ->
  (is_hex_letter c = true -> (c - 32) mod 256 = c - 32) ->
  Hex_step hash result i
  = Some (set_nth result i (checksum_char c (hash_nibble hash i))).
Proof.
  intros Hi Hh Hc Hgt Hsub. unfold Hex_step.
  destruct (nth_error hash (Nat.div i 2)) as [b |] eqn:Eb;
    [| apply nth_error_None in Eb; lia].
  destruct (nth_error result i) as [c' |] eqn:Ec;
    [| apply nth_error_None in Ec; lia].
  pose proof (nth_error_nth _ _ 0 Eb) as Eb'.
  pose proof (nth_error_nth _ _ 0 Ec) as Ec'.
  assert (c' = c) by congruence. subst c'.
  assert (Hnib : (if (Nat.modulo i 2 =? 0)%nat then Z.shiftr b 4
                  else Z.land b 15) = hash_nibble hash i).
  { unfold hash_nibble. cbv zeta. rewrite Eb'.
    destruct (Nat.even i) eqn:Ev.
    - apply Nat.even_spec in Ev. destruct Ev as [k Hk].
      replace (Nat.modulo i 2) with 0%nat
        by (subst i; symmetry; rewrite Nat.mul_comm; apply Nat.Div0.mod_mul).
      cbn [Nat.eqb]. rewrite Z.shiftr_div_pow2 by lia. reflexivity.
    - assert (Ho : Nat.odd i = true)
        by (unfold Nat.odd; rewrite Ev; reflexivity).
      apply Nat.odd_spec in Ho. destruct Ho as [k Hk].
      replace (Nat.modulo i 2) with 1%nat.
      + cbn [Nat.eqb]. change 15 with (Z.ones 4).
        rewrite Z.land_ones by lia. reflexivity.
      + subst i. rewrite Nat.add_comm, Nat.mul_comm, Nat.Div0.mod_add.
        reflexivity. }
  cbv zeta. rewrite Hnib, !Hc, Hgt. unfold checksum_char.
  replace (hash_nibble hash i >? 7) with (8 <=? hash_nibble hash i)
    by (destruct (Z.leb_spec 8 (hash_nibble hash i));
        destruct (Z.gtb_spec (hash_nibble hash i) 7); auto; lia).
  destruct (is_hex_letter c) eqn:El; cbn [andb].
  - destruct (8 <=? hash_nibble hash i).
    + now rewrite Hsub.
    + f_equal. apply (nth_ext _ _ 0 0).
      * now rewrite length_set_nth.
      * intros j _. rewrite nth_set_nth by assumption.
        destruct (Nat.eqb_spec j i); congruence.
  - f_equal. apply (nth_ext _ _ 0 0).
    + now rewrite length_set_nth.
    + intros j _. rewrite nth_set_nth by assumption.
      destruct (Nat.eqb_spec j i); congruence.
Qed.

End HexChecksum.

Section HexLoop.

Variable keccak : bytes -> bytes.

Lemma Hex_loop_spec (hash src : bytes) :
  let orig := EncodeToString src in
  let target j := checksum_char (nth j orig 0) (hash_nibble hash j) in
  (length orig <= 2 * length hash)%nat ->
  forall (n i : nat) (r : bytes),
    (i + n)%nat = length orig ->
    length r = length orig ->
    (forall j, (i <= j)%nat -> nth j r 0 = nth j orig 0) ->
    (forall j, (j < i)%nat -> nth j r 0 = target j) ->
    exists r',
      Hex_loop hash r i n = Some r'
      /\ length r' = length orig
      /\ forall j, (j < length orig)%nat -> nth j r' 0 = target j.
Proof.
  intros orig target Hhash.
  induction n as [| n IH]; intros i r Hin Hlen Hrest Hdone.
  - exists r. repeat split; auto. intros j Hj. apply Hdone. lia.
  - cbn [Hex_loop].
    destruct (EncodeToString_chars src i) as [Hgt Hsub].
    fold orig in Hgt, Hsub.
    rewrite (Hex_step_spec hash r i (nth i orig 0)); auto.
    + apply IH.
      * lia.
      * now rewrite length_set_nth.
      * intros j Hj. rewrite nth_set_nth by lia.
        destruct (Nat.eqb_spec j i); [lia | apply Hrest; lia].
      * intros j Hj. rewrite nth_set_nth by lia.
        destruct (Nat.eqb_spec j i) as [-> | Hne]; [reflexivity |].
        apply Hdone. lia.
    + lia.
    + apply Nat.Div0.div_lt_upper_bound. lia.
Qed.

(** C5: the text form of an address is a function of its 20 bytes alone:
    the lower-case hexadecimal form, in which the character at position
    [i] is replaced by its upper-case form exactly when it is a letter
    a-f and the nibble of the Keccak-256 hash of that lower-case text
    selected by [i] (high nibble of byte [i/2] for an even [i], low
    nibble for an odd one) is 8 or more; digits are left as they are.
    Two calls on the same address give the same text. *)
Theorem Address_Hex_checksum (a : Address) :
  wf_address a ->
  length (keccak (EncodeToString a)) = HashLength ->
  let lower := EncodeToString a in
  let hash := keccak lower in
  exists text,
    Hex keccak a = Some text
    /\ length text = 40%nat
    /\ (forall i, (i < 40)%nat ->
          nth i text 0 =
          if is_hex_letter (nth i lower 0) && (8 <=? hash_nibble hash i)
          then nth i lower 0 - 32
          else nth i lower 0)
    /\ (forall i, is_hex_digit (nth i lower 0) = true ->
          nth i text 0 = nth i lower 0)
    /\ forall a' : Address, a' = a -> Hex keccak a' = Some text.
Proof.
  intros Ha Hh lower hash. unfold wf_address in Ha.
  assert (Hlen : length lower = 40%nat)
    by (unfold lower; rewrite length_EncodeToString, Ha; reflexivity).
  destruct (Hex_loop_spec hash a) with (n := length lower) (i := 0%nat)
                                       (r := lower)
    as (text & Hrun & Htl & Hchars); fold lower; auto.
  - unfold hash, lower in *. rewrite Hh, Hlen. unfold HashLength. lia.
  - intros j Hj. lia.
  - fold lower in Htl, Hchars. exists text.
    assert (HHex : Hex keccak a = Some text) by exact Hrun.
    repeat split; auto.
    + congruence.
    + intros i Hi. rewrite Hchars by lia. reflexivity.
    + intros i Hd.
      destruct (Nat.lt_ge_cases i 40) as [Hi | Hi].
      * rewrite Hchars by lia. unfold checksum_char.
        replace (is_hex_letter (nth i lower 0)) with false; [reflexivity |].
        unfold is_hex_digit, is_hex_letter in *.
        apply andb_prop in Hd. destruct Hd as [_ Hd].
        apply Z.leb_le in Hd. symmetry. apply andb_false_iff. left.
        apply Z.leb_gt. lia.
      * rewrite (nth_overflow lower) in Hd by lia. discriminate Hd.
    + intros a' ->. exact HHex.
Qed.

End HexLoop.

(** The hash written out above returns 32 bytes on every message. *)
Lemma length_LegacyKeccak256 (m : bytes) :
  length (LegacyKeccak256 m) = HashLength.
Proof. reflexivity. Qed.

Lemma Address_Hex_checksum_witness :
  exists text,
    Hex LegacyKeccak256 golden_address = Some text /\ length text = 40%nat.
Proof.
  destruct (Address_Hex_checksum LegacyKeccak256 golden_address)
    as (text & H1 & H2 & _).
  - reflexivity.
  - apply length_LegacyKeccak256.
  - exists text. split; assumption.
Defined.

(** The golden vector: the checksummed form of a known address. *)
Example Address_Hex_golden :
  Hex LegacyKeccak256 golden_address = Some golden_checksum.
Proof. vm_compute. reflexivity. Qed.

(** ** Signer and recovery *)

Lemma set_nth_last (l : bytes) (x v : Z) :
  set_nth (l ++ [x]) (length l) v = l ++ [v].
Proof. induction l as [| y l IH]; simpl; [reflexivity | now rewrite IH]. Qed.

Lemma split_header (c : bytes) :
  length c = 65%nat ->
  exists v rest, c = v :: rest /\ length rest = 64%nat.
Proof.
  destruct c as [| v rest]; [discriminate |].
  intros H. exists v, rest. split; [reflexivity |]. simpl in H. lia.
Qed.

Lemma split_trailer (sig : bytes) :
  length sig = 65%nat ->
  exists body v, sig = body ++ [v] /\ length body = 64%nat.
Proof.
  intros H. exists (firstn 64 sig), (nth 64 sig 0). split.
  - rewrite <- (firstn_skipn 64 sig) at 1. f_equal.
    pose proof (length_skipn 64 sig) as Hs. rewrite H in Hs.
    rewrite <- (firstn_skipn 64 sig) at 2.
    rewrite app_nth2 by (rewrite length_firstn; lia).
    rewrite length_firstn, H. cbn [Nat.min Nat.sub].
    destruct (skipn 64 sig) as [| x [| y l]]; try discriminate. reflexivity.
  - rewrite length_firstn. lia.
Qed.

Lemma btcsig_layout (v : Z) (sig : bytes) :
  length sig = 65%nat ->
  copy_at (set_nth (repeat 0 65%nat) 0 v) 1 65 sig = v :: firstn 64 sig.
Proof.
  intros Hlen. unfold copy_at.
  change (set_nth (repeat 0 65%nat) 0 v) with (v :: repeat 0 64%nat).
  change (firstn 1 (v :: repeat 0 64%nat)) with [v].
  change (skipn 1 (v :: repeat 0 64%nat)) with (repeat 0 64%nat).
  change (skipn 65 (v :: repeat 0 64%nat)) with (skipn 64 (repeat 0 64%nat)).
  change (65 - 1)%nat with 64%nat.
  rewrite firstn_all2, skipn_all2 by (rewrite repeat_length; lia).
  unfold copy. rewrite repeat_length, Hlen.
  rewrite skipn_all2 by (rewrite repeat_length; lia).
  now rewrite !app_nil_r.
Qed.

Section SignRecover.

Variable SignCompact : PrivateKey -> bytes -> bool -> bytes + error.
Variable RecoverCompact : bytes -> bytes -> (PublicKey * bool) + error.
Variable Keccak256 : bytes -> bytes.

Lemma sign_layout (s : GenericSigner) (d c : bytes) (flag : bool) :
  SignCompact (PrivKey s) d false = inl c ->
  length c = 65%nat ->
  sign SignCompact s d flag = Ok (from_btcec c).
Proof.
  intros Hc Hlen. unfold sign, from_btcec. rewrite Hc.
  destruct (split_header c Hlen) as (v & rest & -> & Hrest).
  cbn [nth_error skipn firstn].
  assert (Hcopy : copy (v :: rest) rest
                  = firstn 64 rest ++ [nth 63 rest 0]).
  { unfold copy. cbn [length]. rewrite Hrest, firstn_all2 by lia.
    rewrite firstn_all2 by lia. f_equal.
    destruct (split_trailer (v :: rest)) as (body & x & E & Hb);
      [cbn [length]; lia |].
    rewrite E, skipn_app, Hb, skipn_all2 by lia. cbn [Nat.sub skipn app].
    f_equal.
    assert (E' : nth 64 (v :: rest) 0 = nth 64 (body ++ [x]) 0)
      by (now rewrite E).
    cbn [nth] in E'. rewrite E'.
    rewrite app_nth2 by lia. rewrite Hb. reflexivity. }
  rewrite Hcopy, length_app, length_firstn, Hrest.
  cbn [length Nat.min Nat.add Nat.ltb Nat.leb].
  rewrite firstn_all2 by lia.
  replace 64%nat with (length rest) at 1 by assumption.
  now rewrite set_nth_last.
Qed.

Lemma Recover_layout (sig d : bytes) :
  length sig = 65%nat ->
  Recover RecoverCompact sig d =
  match RecoverCompact (to_btcec sig) d with
  | inl (p, _) => Ok p
  | inr err => Err err
  end.
Proof.
  intros Hlen. unfold Recover, to_btcec. rewrite Hlen. cbn [Nat.eqb negb].
  destruct (split_trailer sig Hlen) as (body & v & -> & Hb).
  rewrite nth_error_app2, Hb by lia. cbn [Nat.sub nth_error].
  rewrite skipn_app, firstn_app, Hb, skipn_all2, firstn_all2 by lia.
  cbn [Nat.sub skipn firstn app]. rewrite app_nil_r.
  rewrite btcsig_layout by assumption.
  rewrite firstn_app, Hb, firstn_all2 by lia.
  cbn [Nat.sub firstn]. now rewrite app_nil_r.
Qed.

End SignRecover.

Lemma length_be_fill (n : nat) (x : Z) : length (be_fill n x) = n.
Proof.
  revert x. induction n as [| n IH]; intros x; cbn [be_fill length];
    [reflexivity |].
  rewrite length_app, IH. cbn [length]. lia.
Qed.

(** [PubkeyToAddress] follows the words of the specification on a point of
    the curve: the hash of the two coordinates (the marshalled key without
    its tag byte), of which the last 20 bytes are kept. *)
Lemma PubkeyToAddress_spec (Keccak256 : bytes -> bytes) (x y : Z) :
  IsOnCurve x y = true ->
  0 <= x < 2 ^ 256 -> 0 <= y < 2 ^ 256 ->
  length (Keccak256 (be_fill 32 x ++ be_fill 32 y)) = HashLength ->
  PubkeyToAddress Keccak256 (mkPublicKey (Some x) (Some y))
  = Ok (skipn 12 (Keccak256 (be_fill 32 x ++ be_fill 32 y))).
Proof.
  intros Hc Hx Hy Hh. unfold PubkeyToAddress, FromECDSAPub, elliptic_Marshal.
  cbn [pk_X pk_Y]. rewrite Hc, orb_true_r. cbn [negb].
  rewrite !Z.abs_eq by lia.
  destruct (Z.ltb_spec x (2 ^ 256)) as [_ | Hbad]; [| lia].
  destruct (Z.ltb_spec y (2 ^ 256)) as [_ | Hbad]; [| lia].
  cbn [andb].
  change (slice_from (4 :: be_fill 32 x ++ be_fill 32 y) 1)
    with (Some (be_fill 32 x ++ be_fill 32 y)).
  unfold slice_from. rewrite Hh.
  change (12 <=? HashLength)%nat with true. cbv iota. f_equal.
  unfold BytesToAddress. cbv zeta. rewrite length_skipn, Hh.
  change (AddressLength <? HashLength - 12)%nat with false. cbv iota.
  rewrite length_skipn, Hh.
  change (AddressLength - (HashLength - 12))%nat with 0%nat.
  rewrite copy_at_exact.
  - cbn [firstn app].
    rewrite (skipn_all2 (n := AddressLength) zero_address)
      by (unfold zero_address; rewrite repeat_length; apply Nat.le_refl).
    apply app_nil_r.
  - apply Nat.le_0_l.
  - unfold zero_address. rewrite repeat_length. apply Nat.le_refl.
  - rewrite length_skipn, Hh. reflexivity.
Qed.

(** C6: a signature whose length is not 65 is refused by [Recover] with
    the error "invalid signature length", whatever the curve library
    would answer (it is not consulted); for a signature of 65 bytes on
    which the recovery of the library fails, the error of the library is
    the error of [Recover].  In both cases no key is returned. *)
Theorem Recover_invalid_signature
  (RecoverCompact : bytes -> bytes -> (PublicKey * bool) + error)
  (signature data : bytes) :
  (length signature <> 65%nat ->
   Recover RecoverCompact signature data = Err invalid_signature_length)
  /\ (length signature = 65%nat ->
      forall e, RecoverCompact (to_btcec signature) data = inr e ->
                Recover RecoverCompact signature data = Err e).
Proof.
  split.
  - intros Hlen. unfold Recover.
    destruct (Nat.eqb_spec (length signature) 65); [contradiction |].
    reflexivity.
  - intros Hlen e He. rewrite Recover_layout by assumption. now rewrite He.
Qed.

Lemma Recover_invalid_signature_witness :
  Recover demo_RecoverCompact [1; 2; 3] demo_digest
  = Err (PlainError "invalid signature length")
  /\ Recover demo_RecoverCompact (repeat 0 65%nat) demo_digest
     = Err (LibError "btcec" "invalid compact signature recovery code").
Proof.
  split.
  - apply (proj1 (Recover_invalid_signature demo_RecoverCompact [1; 2; 3]
                     demo_digest)).
    cbn [length]. lia.
  - apply (proj2 (Recover_invalid_signature demo_RecoverCompact
                     (repeat 0 65%nat) demo_digest));
      reflexivity.
Defined.

(** C1: when the curve library signs the digest with the key of the signer
    and recovers that key from its own compact signature, then [Sign]
    returns the 65 bytes r, s, recovery byte in this order (the header
    byte of the library moved to the end), [Recover] moves the last byte
    back to the front before it calls the library, and so recovers the
    public key of the signer, whose address is therefore the address of
    the signer. *)
Theorem Sign_Recover_address
  (SignCompact : PrivateKey -> bytes -> bool -> bytes + error)
  (RecoverCompact : bytes -> bytes -> (PublicKey * bool) + error)
  (Keccak256 : bytes -> bytes)
  (s : GenericSigner) (digest compact : bytes) (compressed : bool) :
  length digest = HashLength ->
  SignCompact (PrivKey s) digest false = inl compact ->
  length compact = 65%nat ->
  RecoverCompact compact digest = inl (sk_PublicKey (PrivKey s), compressed) ->
  exists signature recovered,
    Sign SignCompact s digest = Ok signature
    /\ length signature = signatureLength
    /\ firstn 64 signature = skipn 1 compact
    /\ nth_error signature 64 = nth_error compact 0
    /\ to_btcec signature = compact
    /\ Recover RecoverCompact signature digest = Ok recovered
    /\ recovered = sk_PublicKey (PrivKey s)
    /\ PubkeyToAddress Keccak256 recovered
       = PubkeyToAddress Keccak256 (sk_PublicKey (PrivKey s)).
Proof.
  intros _ Hsign Hlen Hrec.
  destruct (split_header compact Hlen) as (v & rest & -> & Hrest).
  assert (Hsig : length (rest ++ [v]) = 65%nat)
    by (rewrite length_app, Hrest; reflexivity).
  assert (Hback : to_btcec (rest ++ [v]) = v :: rest).
  { unfold to_btcec.
    rewrite skipn_app, firstn_app, Hrest, skipn_all2, firstn_all2 by lia.
    cbn [Nat.sub skipn firstn app]. now rewrite app_nil_r. }
  exists (rest ++ [v]), (sk_PublicKey (PrivKey s)).
  repeat split.
  - unfold Sign. rewrite (sign_layout SignCompact s digest _ true Hsign Hlen).
    unfold from_btcec. cbn [skipn firstn].
    now rewrite copy_same_length by (rewrite repeat_length; exact Hsig).
  - exact Hsig.
  - rewrite firstn_app, Hrest, firstn_all2 by lia.
    cbn [Nat.sub firstn skipn]. apply app_nil_r.
  - rewrite nth_error_app2, Hrest by lia. reflexivity.
  - exact Hback.
  - rewrite Recover_layout, Hback, Hrec by assumption. reflexivity.
Qed.

Lemma Sign_Recover_address_witness :
  exists signature recovered,
    Sign demo_SignCompact demo_signer demo_digest = Ok signature
    /\ length signature = signatureLength
    /\ firstn 64 signature = skipn 1 demo_compact
    /\ nth_error signature 64 = nth_error demo_compact 0
    /\ to_btcec signature = demo_compact
    /\ Recover demo_RecoverCompact signature demo_digest = Ok recovered
    /\ recovered = sk_PublicKey (PrivKey demo_signer)
    /\ PubkeyToAddress LegacyKeccak256 recovered
       = PubkeyToAddress LegacyKeccak256 (sk_PublicKey (PrivKey demo_signer)).
Proof.
  apply (Sign_Recover_address demo_SignCompact demo_RecoverCompact
           LegacyKeccak256 demo_signer demo_digest demo_compact false);
    reflexivity.
Defined.

(** ** Cache key of a feed *)

Lemma mapKey_unfold (pooled_hash : bytes -> bytes) (order : ByteOrder)
  (f : Feed) :
  wf_feed f ->
  mapKey pooled_hash order f
  = read_uint64 order (pooled_hash (Feed_Topic f ++ Feed_User f)).
Proof.
  intros Hf. unfold mapKey.
  rewrite (binaryPut_ok f (repeat 0 feedLength) Hf)
    by apply repeat_length.
  reflexivity.
Qed.

(** C8, as the code has it: the key is the number read from the first 8
    bytes of the hash of the 52 bytes topic, user, in the byte order of
    the machine.  Feeds with equal topic and user get the same key on
    machines of the same byte order, on every call; a machine of the other
    byte order reads the same 8 bytes in reverse order. *)
Theorem mapKey_same_byte_order
  (pooled_hash : bytes -> bytes) (order : ByteOrder) (f g : Feed) :
  wf_feed f ->
  Feed_Topic g = Feed_Topic f -> Feed_User g = Feed_User f ->
  (8 <= length (pooled_hash (Feed_Topic f ++ Feed_User f)))%nat ->
  let serialized := Feed_Topic f ++ Feed_User f in
  let head := firstn 8 (pooled_hash serialized) in
  length serialized = 52%nat
  /\ mapKey pooled_hash LittleEndian f = Some (le_uint head)
  /\ mapKey pooled_hash BigEndian f = Some (be_uint head)
  /\ mapKey pooled_hash order g = mapKey pooled_hash order f.
Proof.
  intros Hf Ht Hu Hlen serialized head.
  assert (Hg : wf_feed g).
  { destruct Hf as [H1 H2]. split; unfold wf_topic, wf_address in *;
      congruence. }
  rewrite !mapKey_unfold by assumption. rewrite Ht, Hu.
  unfold read_uint64. fold serialized.
  destruct (Nat.leb_spec 8 (length (pooled_hash serialized))) as [_ | Hc];
    [| unfold serialized in Hc; lia].
  repeat split.
  destruct Hf as [H1 H2]. unfold serialized.
  rewrite length_app, H1, H2. reflexivity.
Qed.

Lemma mapKey_same_byte_order_witness :
  mapKey LegacyKeccak256 LittleEndian test_feed
  = Some (le_uint (firstn 8 (LegacyKeccak256
                               (Feed_Topic test_feed ++ Feed_User test_feed)))).
Proof.
  apply (mapKey_same_byte_order LegacyKeccak256 LittleEndian
           test_feed test_feed).
  - split; reflexivity.
  - reflexivity.
  - reflexivity.
  - rewrite length_LegacyKeccak256. unfold HashLength. lia.
Defined.

(** The key of one and the same feed differs between a little-endian and a
    big-endian machine: the value is not stable across machines. *)
Lemma mapKey_differs_across_byte_orders :
  mapKey LegacyKeccak256 LittleEndian test_feed = Some 17107036025050561475
  /\ mapKey LegacyKeccak256 BigEndian test_feed = Some 14122147931329292525
  /\ mapKey LegacyKeccak256 LittleEndian test_feed
     <> mapKey LegacyKeccak256 BigEndian test_feed.
Proof.
  split; [| split].
  - vm_compute. reflexivity.
  - vm_compute. reflexivity.
  - vm_compute. discriminate.
Qed.

(** * Further properties *)

(** ** Hexadecimal text: encoding and decoding *)

Lemma all_bytes_Forall (b : bytes) : all_bytes b = true -> Forall is_byte b.
Proof.
  unfold all_bytes. rewrite forallb_forall, Forall_forall.
  intros H v Hv. specialize (H v Hv). unfold is_byte.
  apply andb_prop in H. destruct H as [H1 H2].
  apply Z.leb_le in H1. apply Z.ltb_lt in H2. lia.
Qed.

Lemma fromHexChar_hexdigit (n : Z) :
  0 <= n < 16 -> fromHexChar (hexdigit n) = Some n.
Proof.
  intros H.
  assert (T : forallb
                (fun k => match fromHexChar (hexdigit (Z.of_nat k)) with
                          | Some v => v =? Z.of_nat k
                          | None => false
                          end)
                (seq 0 16) = true) by reflexivity.
  rewrite forallb_forall in T.
  specialize (T (Z.to_nat n)).
  rewrite Z2Nat.id in T by lia.
  destruct (fromHexChar (hexdigit n)) as [v |].
  - f_equal. apply Z.eqb_eq. apply T. apply in_seq. lia.
  - discriminate T. apply in_seq. lia.
Qed.

Lemma byte_of_nibbles (v : Z) :
  Z.lor (Z.shiftl (Z.shiftr v 4) 4) (Z.land v 15) = v.
Proof.
  change 15 with (Z.ones 4).
  rewrite <- Z.ldiff_ones_r by lia. apply Z.lor_ldiff_and.
Qed.

Lemma byte_nibbles_range (v : Z) :
  is_byte v -> 0 <= Z.shiftr v 4 < 16 /\ 0 <= Z.land v 15 < 16.
Proof.
  intros [Hlo Hhi]. split.
  - rewrite Z.shiftr_div_pow2 by lia. change (2 ^ 4) with 16.
    split; [apply Z.div_pos; lia | apply Z.div_lt_upper_bound; lia].
  - change 15 with (Z.ones 4). rewrite Z.land_ones by lia.
    change (2 ^ 4) with 16. apply Z.mod_pos_bound. lia.
Qed.

(** The decoder undoes the encoder on bytes. *)
Lemma hex_Decode_EncodeToString (b : bytes) :
  Forall is_byte b -> hex_Decode (EncodeToString b) = (b, None).
Proof.
  induction 1 as [| v b Hv Hb IH]; [reflexivity |].
  cbn [EncodeToString hex_Decode].
  destruct (byte_nibbles_range v Hv) as [Hhi Hlo].
  rewrite (fromHexChar_hexdigit _ Hhi), (fromHexChar_hexdigit _ Hlo), IH.
  now rewrite byte_of_nibbles.
Qed.

Lemma EncodeToString_app (a b : bytes) :
  EncodeToString (a ++ b) = EncodeToString a ++ EncodeToString b.
Proof.
  induction a as [| v a IH]; [reflexivity |].
  cbn [app EncodeToString]. now rewrite IH.
Qed.

(** ** Topic: text form and name *)

Lemma FromHex_of_Topic_Hex (t recv : Topic) :
  wf_topic t -> Forall is_byte t -> wf_topic recv ->
  length (Topic_Hex t) = 64%nat
  /\ FromHex recv (Topic_Hex t) = (t, None).
Proof.
  intros Ht Hb Hr. unfold Topic_Hex, wf_topic in *. split.
  - rewrite length_EncodeToString, Ht. reflexivity.
  - rewrite FromHex_unfold, hex_Decode_EncodeToString by assumption.
    cbn [fst snd]. rewrite Ht, Nat.eqb_refl.
    now rewrite copy_same_length by congruence.
Qed.

(** X3: the text form of a topic has 64 characters, and [FromHex] reads
    from it the topic that [Hex] wrote, whatever the receiving topic held
    before. *)
Theorem Topic_Hex_FromHex_roundtrip (t recv : Topic) :
  wf_topic t -> Forall is_byte t -> wf_topic recv ->
  length (Topic_Hex t) = 64%nat
  /\ FromHex recv (Topic_Hex t) = (t, None).
Proof.
  intros Ht Hb Hr. split.
  - unfold Topic_Hex. rewrite length_EncodeToString, Ht. reflexivity.
  - rewrite FromHex_unfold. unfold Topic_Hex.
    rewrite hex_Decode_EncodeToString by assumption. cbn [fst snd].
    unfold wf_topic in *. rewrite Ht, Nat.eqb_refl.
    apply f_equal2; [| reflexivity].
    apply copy_same_length. congruence.
Qed.

Lemma Topic_Hex_FromHex_roundtrip_witness :
  FromHex zero_topic (Topic_Hex test_related) = (test_related, None).
Proof.
  apply (Topic_Hex_FromHex_roundtrip test_related zero_topic).
  - reflexivity.
  - apply all_bytes_Forall. reflexivity.
  - reflexivity.
Defined.

Lemma IndexByte_lower_bound (l : bytes) (c : Z) : -1 <= IndexByte l c.
Proof.
  induction l as [| x l IH]; cbn [IndexByte]; [lia |].
  destruct (x =? c); [lia |]. cbv zeta.
  destruct (IndexByte l c <? 0) eqn:E; [lia |].
  apply Z.ltb_ge in E. lia.
Qed.

(** Cutting a buffer at the index that [IndexByte] finds for the zero
    byte, or at its end when there is none, keeps the bytes before the
    first zero. *)
Lemma firstn_IndexByte_zero (l : bytes) :
  firstn (Z.to_nat (if IndexByte l 0 <? 0 then Z.of_nat (length l)
                    else IndexByte l 0)) l
  = until_zero l.
Proof.
  induction l as [| x l IH]; [reflexivity |].
  cbn [IndexByte until_zero length].
  destruct (x =? 0); [reflexivity |]. cbv zeta.
  pose proof (IndexByte_lower_bound l 0) as Hlb.
  destruct (IndexByte l 0 <? 0) eqn:E.
  - change (-1 <? 0) with true. cbv iota.
    rewrite Nat2Z.id in *. cbn [firstn]. f_equal. exact IH.
  - apply Z.ltb_ge in E.
    destruct (IndexByte l 0 + 1 <? 0) eqn:E'; [apply Z.ltb_lt in E'; lia |].
    replace (Z.to_nat (IndexByte l 0 + 1)) with (S (Z.to_nat (IndexByte l 0)))
      by lia.
    cbn [firstn]. f_equal. exact IH.
Qed.

Lemma until_zero_padding (l : bytes) (k : nat) :
  until_zero (l ++ repeat 0 k) = until_zero l.
Proof.
  induction l as [| x l IH]; cbn [app until_zero].
  - destruct k; reflexivity.
  - destruct (x =? 0); [reflexivity | now rewrite IH].
Qed.

Lemma until_zero_nonzero (l : bytes) :
  Forall (fun b => b <> 0) l -> until_zero l = l.
Proof.
  induction 1 as [| x l Hx Hl IH]; [reflexivity |].
  cbn [until_zero]. destruct (Z.eqb_spec x 0); [contradiction |].
  now rewrite IH.
Qed.

(** X1: what [Name] recovers from the topic of [NewTopic] with the same
    related content, for every name and every related content: the bytes
    of the name, cut to 32 bytes, that stand before its first zero byte.
    A name without zero byte of 32 bytes or more comes back as its first
    32 bytes; a name with a zero byte comes back cut at that byte. *)
Theorem Name_NewTopic_prefix (name : bytes) (relatedContent : option bytes) :
  Name (fst (NewTopic name relatedContent)) relatedContent
  = until_zero (firstn TopicLength name)
  /\ (Forall (fun b => b <> 0) name ->
      Name (fst (NewTopic name relatedContent)) relatedContent
      = firstn TopicLength name)
  /\ (forall front back,
         name = front ++ 0 :: back ->
         Forall (fun b => b <> 0) front ->
         (length front < TopicLength)%nat ->
         Name (fst (NewTopic name relatedContent)) relatedContent = front).
Proof.
  assert (G : Name (fst (NewTopic name relatedContent)) relatedContent
              = until_zero (firstn TopicLength name)).
  { unfold Name. rewrite (Name_buffer name relatedContent).
    rewrite <- (length_pad_topic name) at 1.
    rewrite firstn_IndexByte_zero. unfold pad_topic.
    apply until_zero_padding. }
  split; [exact G | split].
  - intros Hnz. rewrite G. apply until_zero_nonzero.
    rewrite <- (firstn_skipn TopicLength name) in Hnz.
    apply Forall_app in Hnz. apply Hnz.
  - intros front back -> Hnz Hlen. rewrite G.
    rewrite firstn_app.
    rewrite (firstn_all2 (n := TopicLength) front) by lia.
    destruct (TopicLength - length front)%nat as [| k] eqn:E; [lia |].
    cbn [firstn].
    clear G E. induction Hnz as [| x l Hx Hl IH]; cbn [app until_zero].
    + reflexivity.
    + destruct (Z.eqb_spec x 0); [contradiction |].
      rewrite IH; [reflexivity |]. cbn [length] in Hlen. lia.
Qed.

Lemma Name_NewTopic_prefix_witness :
  Name (fst (NewTopic (bytes_of_string "te" ++ 0 :: bytes_of_string "st")
                      (Some test_related)))
       (Some test_related)
  = bytes_of_string "te".
Proof.
  apply (Name_NewTopic_prefix
           (bytes_of_string "te" ++ 0 :: bytes_of_string "st")
           (Some test_related))
    with (back := bytes_of_string "st").
  - reflexivity.
  - repeat constructor; discriminate.
  - cbn. unfold TopicLength, ChunkAddressLength. lia.
Defined.

(** X2: the topic does not tell the name from the related content:
    [NewTopic] gives the same topic and the same error when the two
    inputs are exchanged, and a nil related content gives what an empty
    one gives. *)
Theorem NewTopic_exchange (a b : bytes) :
  NewTopic a (Some b) = NewTopic b (Some a)
  /\ NewTopic a None = NewTopic a (Some []).
Proof.
  split.
  - rewrite (surjective_pairing (NewTopic a (Some b))),
            (surjective_pairing (NewTopic b (Some a))).
    f_equal.
    + apply (nth_ext _ _ 0 0).
      * pose proof (NewTopic_wf a (Some b)) as H1.
        pose proof (NewTopic_wf b (Some a)) as H2.
        unfold wf_topic in *. congruence.
      * intros i _. rewrite !nth_NewTopic. cbn [content_bytes].
        apply Z.lxor_comm.
    + rewrite !NewTopic_snd. unfold too_long. cbn [content_bytes].
      now rewrite orb_comm.
  - reflexivity.
Qed.

(** ** Address: the checksummed text decodes to the address *)

Lemma EncodeToString_in_table (src : bytes) (i : nat) :
  In (nth i (EncodeToString src) 0) (0 :: hextable).
Proof.
  revert i. induction src as [| v src IH]; intros i.
  - left. destruct i; reflexivity.
  - destruct i as [| [| i]]; cbn [EncodeToString nth].
    + apply hexdigit_cases.
    + apply hexdigit_cases.
    + apply IH.
Qed.

(** The upper-case form of a letter has the value of the letter. *)
Lemma fromHexChar_checksum_char (c nibble : Z) :
  In c (0 :: hextable) ->
  fromHexChar (checksum_char c nibble) = fromHexChar c.
Proof.
  intros H. unfold checksum_char, hextable in *.
  destruct (8 <=? nibble);
    repeat (destruct H as [H | H]; [rewrite <- H; reflexivity |]);
    destruct H.
Qed.

(** Two texts with the same digit values, character by character, decode
    to the same bytes. *)
Lemma hex_Decode_same_digits (l1 : bytes) :
  forall l2 : bytes,
    length l1 = length l2 ->
    (forall i, (i < length l1)%nat ->
               fromHexChar (nth i l1 0) = fromHexChar (nth i l2 0)) ->
    snd (hex_Decode l2) = None ->
    hex_Decode l1 = hex_Decode l2.
Proof.
  induction l1 as [| x | x y l IH] using list_pair_ind;
    intros l2 Hlen Hdig Hok.
  - destruct l2; [reflexivity | discriminate Hlen].
  - destruct l2 as [| x' [| y' l']]; try discriminate Hlen.
    cbn [hex_Decode] in Hok. destruct (fromHexChar x'); discriminate Hok.
  - destruct l2 as [| x' [| y' l']]; try discriminate Hlen.
    pose proof (Hdig 0%nat) as H0. pose proof (Hdig 1%nat) as H1.
    cbn [nth length] in H0, H1.
    cbn [hex_Decode] in *.
    rewrite H0, H1 by lia.
    destruct (fromHexChar x'); [| discriminate Hok].
    destruct (fromHexChar y'); [| discriminate Hok].
    rewrite (IH l').
    + reflexivity.
    + cbn [length] in Hlen. lia.
    + intros i Hi. apply (Hdig (S (S i))). cbn [length]. lia.
    + destruct (hex_Decode l') as [out e]. exact Hok.
Qed.

Lemma Hex_text_decodes (keccak : bytes -> bytes) (a : Address) :
  wf_address a -> Forall is_byte a ->
  length (keccak (EncodeToString a)) = HashLength ->
  exists text,
    Hex keccak a = Some text /\ hex_Decode text = (a, None).
Proof.
  intros Ha Hb Hh. unfold wf_address in Ha.
  pose proof (length_EncodeToString a) as Hlen.
  destruct (Hex_loop_spec (keccak (EncodeToString a)) a)
    with (n := length (EncodeToString a)) (i := 0%nat)
         (r := EncodeToString a)
    as (text & Hrun & Htl & Hchars); auto.
  - rewrite Hh, Hlen, Ha. unfold HashLength, AddressLength. lia.
  - intros j Hj. lia.
  - assert (Hdec : hex_Decode text = (a, None)).
    { transitivity (hex_Decode (EncodeToString a));
        [| apply hex_Decode_EncodeToString; exact Hb].
      apply hex_Decode_same_digits.
      - exact Htl.
      - intros i Hi. rewrite Hchars by lia.
        apply fromHexChar_checksum_char, EncodeToString_in_table.
      - now rewrite hex_Decode_EncodeToString. }
    exists text. split; [exact Hrun | exact Hdec].
Qed.

(** X4: the checksummed text of an address is well-formed hexadecimal
    text, and decoding it gives the 20 bytes of the address back: the
    case of the letters carries the checksum only. *)
Theorem Address_Hex_decodes (keccak : bytes -> bytes) (a : Address) :
  wf_address a -> Forall is_byte a ->
  length (keccak (EncodeToString a)) = HashLength ->
  exists text,
    Hex keccak a = Some text
    /\ is_hex_string text = true
    /\ hex_Decode text = (a, None).
Proof.
  intros Ha Hb Hh.
  destruct (Hex_text_decodes keccak a Ha Hb Hh) as (text & Hhex & Hdec).
  exists text. split; [exact Hhex | split; [| exact Hdec]].
  apply hex_Decode_ok_iff. rewrite Hdec. reflexivity.
Qed.

Lemma Address_Hex_decodes_witness :
  exists text,
    Hex LegacyKeccak256 golden_address = Some text
    /\ is_hex_string text = true
    /\ hex_Decode text = (golden_address, None).
Proof.
  apply (Address_Hex_decodes LegacyKeccak256 golden_address).
  - reflexivity.
  - apply all_bytes_Forall. reflexivity.
  - apply length_LegacyKeccak256.
Defined.

(** ** Feed: text form and query parameters *)

(** X5: the text form of a feed is the text form of its topic followed by
    the lower-case hexadecimal form of its user, 104 characters in all,
    and decoding it and reading the bytes with [binaryGet] gives the feed
    back. *)
Theorem Feed_Hex_layout (f recv : Feed) :
  wf_feed f -> wf_feed recv ->
  Forall is_byte (Feed_Topic f) -> Forall is_byte (Feed_User f) ->
  Feed_Hex f = Topic_Hex (Feed_Topic f) ++ EncodeToString (Feed_User f)
  /\ length (Feed_Hex f) = 104%nat
  /\ binaryGet recv (fst (hex_Decode (Feed_Hex f))) = (f, None).
Proof.
  intros Hf Hrecv Hbt Hbu.
  assert (E : Feed_Hex f = EncodeToString (Feed_Topic f ++ Feed_User f)).
  { unfold Feed_Hex.
    rewrite (binaryPut_ok f (repeat 0 feedLength) Hf)
      by apply repeat_length.
    reflexivity. }
  destruct Hf as [Ht Hu]. rewrite E. split; [| split].
  - apply EncodeToString_app.
  - rewrite length_EncodeToString, length_app, Ht, Hu. reflexivity.
  - rewrite hex_Decode_EncodeToString by (apply Forall_app; auto).
    cbn [fst]. rewrite (binaryGet_ok recv _ _ Hrecv Ht Hu). now destruct f.
Qed.

Lemma Feed_Hex_layout_witness :
  binaryGet (mkFeed zero_topic zero_address)
            (fst (hex_Decode (Feed_Hex test_feed)))
  = (test_feed, None).
Proof.
  apply (Feed_Hex_layout test_feed (mkFeed zero_topic zero_address)).
  - split; reflexivity.
  - split; reflexivity.
  - apply all_bytes_Forall. reflexivity.
  - apply all_bytes_Forall. reflexivity.
Defined.

Lemma Values_Get_Set_same (values : Values) (key : string) (v : bytes) :
  Values_Get (Values_Set values key v) key = v.
Proof. unfold Values_Set. cbn [Values_Get]. now rewrite String.eqb_refl. Qed.

Lemma Values_Get_Set_other (values : Values) (key key' : string) (v : bytes) :
  key <> key' ->
  Values_Get (Values_Set values key v) key' = Values_Get values key'.
Proof.
  intros Hne. unfold Values_Set. cbn [Values_Get].
  destruct (String.eqb_spec key key') as [E | _]; [contradiction |].
  induction values as [| [k w] rest IH]; [reflexivity |].
  cbn [filter fst Values_Get].
  destruct (String.eqb_spec k key) as [-> | Hk]; cbn [negb].
  - destruct (String.eqb_spec key key'); [contradiction | exact IH].
  - cbn [Values_Get]. destruct (String.eqb k key'); [reflexivity | exact IH].
Qed.

(** The second half of [FromValues], on the decoded text of the key
    [user]. *)
Lemma FromValues_unfold (f : Feed) (values : Values) :
  FromValues f values =
  match FromValues_topic f values with
  | (f', Some err) => (f', Some err)
  | (f', None) =>
      match snd (hex_Decode (Values_Get values "user")) with
      | Some e => (f', Some (hex_error_to_error e))
      | None =>
          let addr := fst (hex_Decode (Values_Get values "user")) in
          if (length addr <? AddressLength)%nat
          then (f', Some address_too_short)
          else (mkFeed (Feed_Topic f')
                       (copy (Feed_User f') (firstn AddressLength addr)),
                None)
      end
  end.
Proof.
  unfold FromValues.
  destruct (FromValues_topic f values) as [f' [err |]]; [reflexivity |].
  destruct (DecodeString_bytes (Values_Get values "user")) as [Hb He].
  destruct (DecodeString (Values_Get values "user")) as [addr err].
  cbn [fst snd] in *. rewrite <- He, <- Hb. reflexivity.
Qed.

(** The first half on the key [topic]. *)
Lemma FromValues_topic_key (f : Feed) (values : Values) :
  Values_Get values "topic" <> [] ->
  FromValues_topic f values =
  (mkFeed (fst (FromHex (Feed_Topic f) (Values_Get values "topic")))
          (Feed_User f),
   snd (FromHex (Feed_Topic f) (Values_Get values "topic"))).
Proof.
  intros Hne. unfold FromValues_topic.
  destruct (Values_Get values "topic") as [| c rest] eqn:E;
    [contradiction |].
  cbn [length Nat.eqb negb].
  destruct (FromHex (Feed_Topic f) (c :: rest)); reflexivity.
Qed.

(** The first half on the keys [name] and [relatedcontent]: the content is
    what the text decodes to before its first malformed character. *)
Lemma FromValues_topic_name (f : Feed) (values : Values) :
  Values_Get values "topic" = [] ->
  let name := Values_Get values "name" in
  let content := fst (hex_Decode (Values_Get values "relatedcontent")) in
  FromValues_topic f values =
  if ((0 <? length content) && (length content <? ChunkAddressLength))%nat
  then (f, Some relatedcontent_error)
  else (mkFeed (fst (NewTopic name (Some (firstn TopicLength content))))
               (Feed_User f),
        snd (NewTopic name (Some (firstn TopicLength content)))).
Proof.
  intros He. cbv zeta. unfold FromValues_topic. rewrite He.
  cbn [length Nat.eqb negb].
  destruct (DecodeString_bytes (Values_Get values "relatedcontent"))
    as [Hb _].
  destruct (DecodeString (Values_Get values "relatedcontent")) as [d e].
  cbn [fst] in Hb. rewrite Hb.
  set (content := fst (hex_Decode (Values_Get values "relatedcontent"))).
  destruct ((0 <? length content) && (length content <? ChunkAddressLength))%nat
    eqn:Hshort; [reflexivity |].
  assert (Hcut : (if (0 <? length content)%nat
                  then firstn ChunkAddressLength content else content)
                 = firstn TopicLength content).
  { destruct (Nat.ltb_spec 0 (length content)); [reflexivity |].
    destruct content; [reflexivity | cbn [length] in *; lia]. }
  rewrite Hcut.
  destruct (NewTopic _ _); reflexivity.
Qed.

Lemma Topic_Hex_nonempty (t : Topic) : wf_topic t -> Topic_Hex t <> [].
Proof.
  intros Ht E. apply (f_equal (@length Z)) in E.
  unfold Topic_Hex in E. rewrite length_EncodeToString, Ht in E.
  discriminate E.
Qed.

(** X6: [FromValues] reads back what [AppendValues] wrote: from the
    mapping to which the feed was appended, whatever it held before, the
    feed is recovered without error into any receiving feed, although the
    user is written in its checksummed form. *)
Theorem FromValues_AppendValues_roundtrip
  (keccak : bytes -> bytes) (f recv : Feed) (values : Values) :
  wf_feed f -> wf_feed recv ->
  Forall is_byte (Feed_Topic f) -> Forall is_byte (Feed_User f) ->
  length (keccak (EncodeToString (Feed_User f))) = HashLength ->
  exists values',
    AppendValues keccak f values = Some values'
    /\ Values_Get values' "topic" = Topic_Hex (Feed_Topic f)
    /\ FromValues recv values' = (f, None).
Proof.
  intros [Ht Hu] [Ht' Hu'] Hbt Hbu Hh.
  destruct (Hex_text_decodes keccak (Feed_User f) Hu Hbu Hh)
    as (text & Hhex & Hdec).
  unfold AppendValues. rewrite Hhex.
  set (values' := Values_Set
                    (Values_Set values "topic" (Topic_Hex (Feed_Topic f)))
                    "user" text).
  assert (Gt : Values_Get values' "topic" = Topic_Hex (Feed_Topic f)).
  { unfold values'. rewrite Values_Get_Set_other by discriminate.
    apply Values_Get_Set_same. }
  assert (Gu : Values_Get values' "user" = text)
    by apply Values_Get_Set_same.
  exists values'. split; [reflexivity | split; [exact Gt |]].
  rewrite FromValues_unfold, FromValues_topic_key
    by (rewrite Gt; now apply Topic_Hex_nonempty).
  rewrite Gt, Gu.
  destruct (FromHex_of_Topic_Hex (Feed_Topic f) (Feed_Topic recv) Ht Hbt Ht')
    as [_ ->].
  cbn [fst snd]. rewrite Hdec. cbn [fst snd]. cbv zeta.
  unfold wf_address in *. rewrite Hu.
  change (AddressLength <? AddressLength)%nat with false. cbv iota.
  cbn [Feed_Topic Feed_User].
  rewrite firstn_all2 by lia.
  rewrite copy_same_length by congruence. now destruct f.
Qed.

Lemma FromValues_AppendValues_roundtrip_witness :
  exists values',
    AppendValues LegacyKeccak256 test_feed demo_values = Some values'
    /\ Values_Get values' "topic" = Topic_Hex (Feed_Topic test_feed)
    /\ FromValues (mkFeed zero_topic zero_address) values' = (test_feed, None).
Proof.
  apply (FromValues_AppendValues_roundtrip LegacyKeccak256 test_feed
           (mkFeed zero_topic zero_address) demo_values).
  - split; reflexivity.
  - split; reflexivity.
  - apply all_bytes_Forall. reflexivity.
  - apply all_bytes_Forall. reflexivity.
  - apply length_LegacyKeccak256.
Defined.

(** X7: a user text that is well-formed hexadecimal but shorter than 40
    digits, the empty text of a missing key included, makes [FromValues]
    fail with "address too short"; the topic given under the key [topic]
    has then already replaced the topic of the feed, and the user of the
    feed is as it was. *)
Theorem FromValues_short_user (f : Feed) (values : Values) (t : Topic) :
  wf_topic (Feed_Topic f) -> wf_topic t -> Forall is_byte t ->
  Values_Get values "topic" = Topic_Hex t ->
  is_hex_string (Values_Get values "user") = true ->
  (length (Values_Get values "user") < 40)%nat ->
  FromValues f values = (mkFeed t (Feed_User f), Some address_too_short).
Proof.
  intros Hf Ht Hb Gt Hhex Hlen.
  rewrite FromValues_unfold, FromValues_topic_key
    by (rewrite Gt; now apply Topic_Hex_nonempty).
  rewrite Gt.
  destruct (FromHex_of_Topic_Hex t (Feed_Topic f) Ht Hb Hf) as [_ ->].
  cbn [fst snd].
  apply hex_Decode_ok_iff in Hhex. rewrite Hhex. cbv zeta.
  rewrite (hex_Decode_length _ Hhex).
  destruct (Nat.ltb_spec (Nat.div (length (Values_Get values "user")) 2)
                         AddressLength) as [_ | Hge]; [reflexivity |].
  exfalso. unfold AddressLength in Hge.
  assert (Nat.div (length (Values_Get values "user")) 2 < 20)%nat
    by (apply Nat.Div0.div_lt_upper_bound; lia).
  lia.
Qed.

Lemma FromValues_short_user_witness :
  FromValues test_feed [("topic"%string, Topic_Hex test_related)]
  = (mkFeed test_related (Feed_User test_feed), Some address_too_short).
Proof.
  apply (FromValues_short_user test_feed
           [("topic"%string, Topic_Hex test_related)] test_related).
  - reflexivity.
  - reflexivity.
  - apply all_bytes_Forall. reflexivity.
  - reflexivity.
  - reflexivity.
  - vm_compute. lia.
Defined.

(** X8: without the key [topic], a related content whose text decodes,
    before its first malformed character, to between 1 and 31 bytes makes
    [FromValues] fail with the [ErrInvalidValue] error on the related
    content, and the feed is left as it was. *)
Theorem FromValues_short_relatedcontent (f : Feed) (values : Values) :
  Values_Get values "topic" = [] ->
  let content := fst (hex_Decode (Values_Get values "relatedcontent")) in
  (0 < length content < ChunkAddressLength)%nat ->
  FromValues f values = (f, Some relatedcontent_error).
Proof.
  intros Gt content Hlen.
  rewrite FromValues_unfold, (FromValues_topic_name f values Gt).
  cbv zeta. fold content.
  destruct (Nat.ltb_spec 0 (length content)); [| lia].
  destruct (Nat.ltb_spec (length content) ChunkAddressLength); [| lia].
  reflexivity.
Qed.

Lemma FromValues_short_relatedcontent_witness :
  FromValues test_feed
    [("name"%string, test_name);
     ("relatedcontent"%string, bytes_of_string "abcdzz");
     ("user"%string, golden_checksum)]
  = (test_feed,
     Some (FeedError ErrInvalidValue
             "relatedcontent field must be a hex-encoded byte array exactly 32 bytes long")).
Proof.
  apply (FromValues_short_relatedcontent test_feed).
  - reflexivity.
  - vm_compute. lia.
Defined.

(** X9: without the key [topic], with a name of at most 32 bytes, a related
    content that decodes to no byte or to 32 bytes and more, and a user
    text of 40 well-formed digits or more, [FromValues] succeeds: the
    topic is the topic of the name and of the first 32 bytes of the
    content, the user the first 20 bytes of the decoded text.  Bytes of
    the content after the 32nd, characters of its text after the first
    malformed one and bytes of the user after the 20th are dropped
    without error. *)
Theorem FromValues_name_and_content (f : Feed) (values : Values) :
  wf_feed f ->
  Values_Get values "topic" = [] ->
  let name := Values_Get values "name" in
  let content := fst (hex_Decode (Values_Get values "relatedcontent")) in
  let user := fst (hex_Decode (Values_Get values "user")) in
  (length name <= TopicLength)%nat ->
  length content = 0%nat \/ (ChunkAddressLength <= length content)%nat ->
  is_hex_string (Values_Get values "user") = true ->
  (40 <= length (Values_Get values "user"))%nat ->
  FromValues f values
  = (mkFeed (fst (NewTopic name (Some (firstn TopicLength content))))
            (firstn AddressLength user),
     None).
Proof.
  intros [Hft Hfu] Gt name content user Hname Hcontent Hhex Hlen.
  rewrite FromValues_unfold, (FromValues_topic_name f values Gt).
  cbv zeta. fold name content.
  assert (Hshort : ((0 <? length content)
                    && (length content <? ChunkAddressLength))%nat = false).
  { apply andb_false_iff.
    destruct Hcontent as [H0 | H32];
      [left; apply Nat.ltb_ge; lia | right; apply Nat.ltb_ge; lia]. }
  rewrite Hshort, NewTopic_snd.
  assert (Hok : too_long name (Some (firstn TopicLength content)) = false).
  { unfold too_long. cbn [content_bytes]. rewrite length_firstn.
    apply orb_false_iff. split; apply Nat.ltb_ge; lia. }
  rewrite Hok.
  apply hex_Decode_ok_iff in Hhex. rewrite Hhex. fold user.
  assert (Hu : (AddressLength <= length user)%nat).
  { unfold user. rewrite (hex_Decode_length _ Hhex). unfold AddressLength.
    apply Nat.div_le_lower_bound; lia. }
  destruct (Nat.ltb_spec (length user) AddressLength); [lia |].
  cbn [Feed_Topic Feed_User]. f_equal. f_equal.
  apply copy_same_length. rewrite length_firstn.
  unfold wf_address in Hfu. lia.
Qed.

Lemma FromValues_name_and_content_witness :
  FromValues (mkFeed zero_topic zero_address)
    [("name"%string, test_name);
     ("relatedcontent"%string,
      EncodeToString (test_related ++ [1; 2; 3]) ++ bytes_of_string "zz");
     ("user"%string, golden_checksum ++ bytes_of_string "ffff")]
  = (test_feed, None).
Proof.
  apply (FromValues_name_and_content (mkFeed zero_topic zero_address)).
  - split; reflexivity.
  - reflexivity.
  - vm_compute. lia.
  - right. vm_compute. lia.
  - reflexivity.
  - vm_compute. lia.
Defined.

(** X10: without the key [topic], and with a related content that decodes
    to no byte or to 32 bytes and more, a name longer than 32 bytes makes
    [FromValues] fail with [ErrTopicTooLong]; the topic of the truncated
    name and of the first 32 bytes of the content has then already
    replaced the topic of the feed, and the user is as it was.  (A related
    content of 1 to 31 bytes is refused before the name is looked at.) *)
Theorem FromValues_long_name (f : Feed) (values : Values) :
  Values_Get values "topic" = [] ->
  let name := Values_Get values "name" in
  let content := fst (hex_Decode (Values_Get values "relatedcontent")) in
  length content = 0%nat \/ (ChunkAddressLength <= length content)%nat ->
  (TopicLength < length name)%nat ->
  FromValues f values
  = (mkFeed (fst (NewTopic (firstn TopicLength name)
                           (Some (firstn TopicLength content))))
            (Feed_User f),
     Some ErrTopicTooLong).
Proof.
  intros Gt name content Hcontent Hname.
  rewrite FromValues_unfold, (FromValues_topic_name f values Gt).
  cbv zeta. fold name content.
  assert (Hshort : ((0 <? length content)
                    && (length content <? ChunkAddressLength))%nat = false).
  { apply andb_false_iff.
    destruct Hcontent as [H0 | H32];
      [left; apply Nat.ltb_ge; lia | right; apply Nat.ltb_ge; lia]. }
  rewrite Hshort, NewTopic_snd.
  assert (Hlong : too_long name (Some (firstn TopicLength content)) = true).
  { unfold too_long. apply orb_true_iff. left. apply Nat.ltb_lt. exact Hname. }
  rewrite Hlong. f_equal. f_equal.
  rewrite !NewTopic_fst. cbn [content_bytes].
  now rewrite firstn_firstn, Nat.min_id.
Qed.

Lemma FromValues_long_name_witness :
  FromValues test_feed
    [("name"%string, test_related ++ test_name);
     ("user"%string, golden_checksum)]
  = (mkFeed test_related (Feed_User test_feed), Some ErrTopicTooLong).
Proof.
  apply (FromValues_long_name test_feed
           [("name"%string, test_related ++ test_name);
            ("user"%string, golden_checksum)]).
  - reflexivity.
  - left. reflexivity.
  - vm_compute. lia.
Defined.

(** ** JSON forms *)

(** X13: when the JSON library reads the string it wrote, [UnmarshalJSON]
    of a topic reads from the output of [MarshalJSON] the topic that was
    written, into any receiving topic. *)
Theorem Topic_JSON_roundtrip
  (json_Marshal_string json_Unmarshal_string : bytes -> bytes + error)
  (t recv : Topic) (data : bytes) :
  wf_topic t -> Forall is_byte t -> wf_topic recv ->
  json_Marshal_string (Topic_Hex t) = inl data ->
  json_Unmarshal_string data = inl (Topic_Hex t) ->
  Topic_MarshalJSON json_Marshal_string t = inl data
  /\ Topic_UnmarshalJSON json_Unmarshal_string recv data = (t, None).
Proof.
  intros Ht Hb Hr Hm Hu. split; [exact Hm |].
  unfold Topic_UnmarshalJSON. rewrite Hu.
  apply (FromHex_of_Topic_Hex t recv Ht Hb Hr).
Qed.

Lemma Topic_JSON_roundtrip_witness :
  Topic_MarshalJSON json_plain_marshal test_related
  = inl (34 :: Topic_Hex test_related ++ [34])
  /\ Topic_UnmarshalJSON json_plain_string zero_topic
       (34 :: Topic_Hex test_related ++ [34])
     = (test_related, None).
Proof.
  apply (Topic_JSON_roundtrip json_plain_marshal json_plain_string
           test_related zero_topic).
  - reflexivity.
  - apply all_bytes_Forall. reflexivity.
  - reflexivity.
  - reflexivity.
  - reflexivity.
Defined.

(** X14: when the JSON library reads the string it wrote, [UnmarshalJSON]
    of an address reads from the output of [MarshalJSON], which is the
    lower-case text without checksum, the address that was written. *)
Theorem Address_JSON_roundtrip
  (json_Marshal_string json_Unmarshal_string : bytes -> bytes + error)
  (a recv : Address) (data : bytes) :
  wf_address a -> Forall is_byte a -> wf_address recv ->
  json_Marshal_string (EncodeToString a) = inl data ->
  json_Unmarshal_string data = inl (EncodeToString a) ->
  Address_MarshalJSON json_Marshal_string a = inl data
  /\ Address_UnmarshalJSON json_Unmarshal_string recv data = Ok a.
Proof.
  intros Ha Hb Hr Hm Hu. split; [exact Hm |].
  rewrite (Address_UnmarshalJSON_string json_Unmarshal_string recv data _ Hu).
  rewrite hex_Decode_EncodeToString by assumption. cbn [fst snd].
  unfold wf_address in *. rewrite Ha, Nat.leb_refl.
  rewrite firstn_all2 by lia.
  now rewrite copy_same_length by congruence.
Qed.

Lemma Address_JSON_roundtrip_witness :
  Address_UnmarshalJSON json_plain_string zero_address
    (34 :: EncodeToString golden_address ++ [34])
  = Ok golden_address.
Proof.
  apply (Address_JSON_roundtrip json_plain_marshal json_plain_string
           golden_address zero_address).
  - reflexivity.
  - apply all_bytes_Forall. reflexivity.
  - reflexivity.
  - reflexivity.
  - reflexivity.
Defined.

Lemma Address_UnmarshalJSON_long_value_witness :
  Address_UnmarshalJSON json_plain_string zero_address
    (34 :: EncodeToString (golden_address ++ [1; 2; 3]) ++ [34])
  = Ok golden_address.
Proof.
  apply (Address_UnmarshalJSON_long_value json_plain_string zero_address
           (34 :: EncodeToString (golden_address ++ [1; 2; 3]) ++ [34])
           (EncodeToString (golden_address ++ [1; 2; 3]))).
  - reflexivity.
  - reflexivity.
  - reflexivity.
  - vm_compute. lia.
Defined.

(** ** Signer: the address behind a signature *)

Lemma to_btcec_from_btcec (compact : bytes) :
  length compact = 65%nat ->
  length (from_btcec compact) = 65%nat
  /\ to_btcec (from_btcec compact) = compact.
Proof.
  intros Hlen.
  destruct (split_header compact Hlen) as (v & rest & -> & Hrest).
  unfold from_btcec.
  change (skipn 1 (v :: rest)) with rest.
  change (firstn 1 (v :: rest)) with [v].
  unfold to_btcec. split.
  - rewrite length_app, Hrest. reflexivity.
  - rewrite skipn_app, firstn_app, Hrest, skipn_all2, firstn_all2 by lia.
    cbn [Nat.sub skipn firstn app]. now rewrite app_nil_r.
Qed.

Lemma Sign_then_Recover
  (SignCompact : PrivateKey -> bytes -> bool -> bytes + error)
  (RecoverCompact : bytes -> bytes -> (PublicKey * bool) + error)
  (s : GenericSigner) (digest compact : bytes) (pub : PublicKey)
  (compressed : bool) :
  SignCompact (PrivKey s) digest false = inl compact ->
  length compact = 65%nat ->
  RecoverCompact compact digest = inl (pub, compressed) ->
  Sign SignCompact s digest = Ok (from_btcec compact)
  /\ Recover RecoverCompact (from_btcec compact) digest = Ok pub.
Proof.
  intros Hsign Hlen Hrec.
  destruct (to_btcec_from_btcec compact Hlen) as [Hl Hback]. split.
  - unfold Sign. rewrite (sign_layout SignCompact s digest _ true Hsign Hlen).
    now rewrite copy_same_length by (rewrite repeat_length; exact Hl).
  - rewrite Recover_layout, Hback, Hrec by assumption. reflexivity.
Qed.

(** X16: a signer built by [NewGenericSigner] is recognised by
    [getUserAddr]: when the curve library recovers the key of the signer
    from the compact signature it made, the address that [getUserAddr]
    finds for the digest and the signature of [Sign] is the address the
    signer reports. *)
Theorem getUserAddr_of_Sign
  (SignCompact : PrivateKey -> bytes -> bool -> bytes + error)
  (RecoverCompact : bytes -> bytes -> (PublicKey * bool) + error)
  (NewEthereumAddress : PublicKey -> bytes * option error)
  (key : PrivateKey) (s : GenericSigner) (digest compact : bytes)
  (compressed : bool) :
  NewGenericSigner NewEthereumAddress key = Ok s ->
  SignCompact key digest false = inl compact ->
  length compact = 65%nat ->
  RecoverCompact compact digest = inl (sk_PublicKey key, compressed) ->
  exists signature,
    Sign SignCompact s digest = Ok signature
    /\ getUserAddr RecoverCompact NewEthereumAddress digest signature
       = Ok (Signer_Address s).
Proof.
  intros Hnew Hsign Hlen Hrec. unfold NewGenericSigner in Hnew.
  destruct (NewEthereumAddress (sk_PublicKey key)) as [addr [e |]] eqn:Ha;
    [discriminate Hnew |].
  inversion Hnew. subst s. clear Hnew.
  destruct (Sign_then_Recover SignCompact RecoverCompact
              (mkGenericSigner key (copy zero_address addr))
              digest compact (sk_PublicKey key) compressed Hsign Hlen Hrec)
    as [HS HR].
  exists (from_btcec compact). split; [exact HS |].
  unfold getUserAddr. rewrite HR, Ha. reflexivity.
Qed.

Lemma getUserAddr_of_Sign_witness :
  exists signature,
    Sign demo_SignCompact demo_generic_signer demo_digest = Ok signature
    /\ getUserAddr demo_RecoverCompact demo_NewEthereumAddress demo_digest
         signature
       = Ok (Signer_Address demo_generic_signer).
Proof.
  apply (getUserAddr_of_Sign demo_SignCompact demo_RecoverCompact
           demo_NewEthereumAddress demo_key demo_generic_signer demo_digest
           demo_compact false);
    reflexivity.
Defined.

(** X17: for a public key with both coordinates that is a point of the
    curve with coordinates between 0 and 2^256, [PubkeyToAddress] returns
    an address of 20 bytes, the last 20 bytes of the hash of the 64 bytes
    of the coordinates.  For a key that lacks a coordinate [FromECDSAPub]
    returns nil and [PubkeyToAddress] panics on the slice expression; for
    a pair of coordinates, not both zero, that is not on the curve it
    panics inside [elliptic.Marshal]. *)
Theorem PubkeyToAddress_cases (Keccak256 : bytes -> bytes) (p : PublicKey) :
  (forall x y,
      p = mkPublicKey (Some x) (Some y) ->
      IsOnCurve x y = true ->
      0 <= x < 2 ^ 256 -> 0 <= y < 2 ^ 256 ->
      length (Keccak256 (be_fill 32 x ++ be_fill 32 y)) = HashLength ->
      PubkeyToAddress Keccak256 p
      = Ok (skipn 12 (Keccak256 (be_fill 32 x ++ be_fill 32 y)))
      /\ length (be_fill 32 x ++ be_fill 32 y) = 64%nat
      /\ wf_address (skipn 12 (Keccak256 (be_fill 32 x ++ be_fill 32 y))))
  /\ (pk_X p = None \/ pk_Y p = None ->
      FromECDSAPub (Some p) = Ok []
      /\ PubkeyToAddress Keccak256 p = Panic "slice bounds out of range")
  /\ (forall x y,
         p = mkPublicKey (Some x) (Some y) ->
         IsOnCurve x y = false -> x <> 0 \/ y <> 0 ->
         PubkeyToAddress Keccak256 p
         = Panic "crypto/elliptic: attempted operation on invalid point").
Proof.
  split; [| split].
  - intros x y -> Hc Hx Hy Hh. split; [| split].
    + now apply PubkeyToAddress_spec.
    + rewrite length_app, !length_be_fill. reflexivity.
    + unfold wf_address. rewrite length_skipn, Hh. reflexivity.
  - intros Hnil. unfold PubkeyToAddress, FromECDSAPub.
    destruct p as [[x |] [y |]]; cbn [pk_X pk_Y] in *;
      destruct Hnil as [H | H]; try discriminate H; split; reflexivity.
  - intros x y -> Hc Hnz.
    unfold PubkeyToAddress, FromECDSAPub, elliptic_Marshal.
    cbn [pk_X pk_Y]. rewrite Hc, orb_false_r.
    assert (Hz : (x =? 0) && (y =? 0) = false).
    { apply andb_false_iff.
      destruct Hnz as [H | H]; [left | right]; now apply Z.eqb_neq. }
    rewrite Hz. reflexivity.
Qed.

Lemma PubkeyToAddress_cases_witness :
  PubkeyToAddress LegacyKeccak256 (sk_PublicKey demo_key)
  = Ok (skipn 12 (LegacyKeccak256
                    (be_fill 32 secp256k1_Gx ++ be_fill 32 secp256k1_Gy)))
  /\ PubkeyToAddress LegacyKeccak256 (mkPublicKey (Some 1) None)
     = Panic "slice bounds out of range"
  /\ PubkeyToAddress LegacyKeccak256
       (mkPublicKey (Some 1234567890123456789) (Some 987654321))
     = Panic "crypto/elliptic: attempted operation on invalid point".
Proof.
  split; [| split].
  - apply (proj1 (PubkeyToAddress_cases LegacyKeccak256
                     (sk_PublicKey demo_key))
             secp256k1_Gx secp256k1_Gy).
    + reflexivity.
    + vm_compute. reflexivity.
    + vm_compute. split; [discriminate | reflexivity].
    + vm_compute. split; [discriminate | reflexivity].
    + apply length_LegacyKeccak256.
  - apply (proj1 (proj2 (PubkeyToAddress_cases LegacyKeccak256
                            (mkPublicKey (Some 1) None)))).
    right. reflexivity.
  - apply (proj2 (proj2 (PubkeyToAddress_cases LegacyKeccak256
                            (mkPublicKey (Some 1234567890123456789)
                                         (Some 987654321))))
             1234567890123456789 987654321).
    + reflexivity.
    + vm_compute. reflexivity.
    + left. discriminate.
Defined.

(** ** Cache key: range *)

Lemma le_uint_range (l : bytes) :
  Forall is_byte l -> 0 <= le_uint l < 256 ^ Z.of_nat (length l).
Proof.
  induction 1 as [| x l Hx Hl IH]; [cbn; lia |].
  cbn [le_uint length]. rewrite Nat2Z.inj_succ, Z.pow_succ_r by lia.
  unfold is_byte in Hx. lia.
Qed.

(** X18: when the hash returns bytes, the key that [mapKey] computes, on
    either byte order, is a number that fits 64 bits without sign. *)
Theorem mapKey_fits_uint64
  (pooled_hash : bytes -> bytes) (order : ByteOrder) (f : Feed) (key : Z) :
  wf_feed f ->
  Forall is_byte (pooled_hash (Feed_Topic f ++ Feed_User f)) ->
  mapKey pooled_hash order f = Some key ->
  0 <= key < 2 ^ 64.
Proof.
  intros Hf Hb Hk. rewrite (mapKey_unfold _ _ _ Hf) in Hk.
  unfold read_uint64 in Hk.
  set (h := pooled_hash (Feed_Topic f ++ Feed_User f)) in *.
  destruct (Nat.leb_spec 8 (length h)) as [Hlen | _]; [| discriminate Hk].
  assert (Hhead : Forall is_byte (firstn 8 h)).
  { rewrite <- (firstn_skipn 8 h) in Hb. apply Forall_app in Hb. apply Hb. }
  assert (Hl : length (firstn 8 h) = 8%nat)
    by (rewrite length_firstn; lia).
  destruct order; inversion Hk; subst key.
  - pose proof (le_uint_range _ Hhead) as R. rewrite Hl in R. exact R.
  - assert (Hrev : Forall is_byte (rev (firstn 8 h)))
      by (apply Forall_rev; exact Hhead).
    pose proof (le_uint_range _ Hrev) as R.
    rewrite length_rev, Hl in R. exact R.
Qed.

Lemma le_bytes_are_bytes (l : list Z) :
  Forall is_byte (flat_map (Keccak.le_bytes 8) l).
Proof.
  induction l as [| x l IH]; [constructor |].
  cbn [flat_map]. apply Forall_app. split; [| exact IH].
  generalize 8%nat. intros n. revert x.
  induction n as [| n IHn]; intros x; cbn [Keccak.le_bytes]; constructor.
  - unfold is_byte. apply Z.mod_pos_bound. lia.
  - apply IHn.
Qed.

Lemma mapKey_fits_uint64_witness :
  mapKey LegacyKeccak256 LittleEndian test_feed = Some 17107036025050561475
  /\ 0 <= 17107036025050561475 < 2 ^ 64.
Proof.
  assert (H : mapKey LegacyKeccak256 LittleEndian test_feed
              = Some 17107036025050561475) by (vm_compute; reflexivity).
  split; [exact H |].
  apply (mapKey_fits_uint64 LegacyKeccak256 LittleEndian test_feed).
  - split; reflexivity.
  - apply le_bytes_are_bytes.
  - exact H.
Defined.

(** ** Query parameters: the key [topic] *)

(** X11: when the key [topic] holds a text, [FromValues] does not look at
    the keys [name] and [relatedcontent]: two mappings with the same
    non-empty [topic] and the same [user] give the same result. *)
Theorem FromValues_topic_precedence (f : Feed) (values values' : Values) :
  Values_Get values "topic" <> [] ->
  Values_Get values' "topic" = Values_Get values "topic" ->
  Values_Get values' "user" = Values_Get values "user" ->
  FromValues f values' = FromValues f values.
Proof.
  intros Hne Gt Gu.
  rewrite !FromValues_unfold, !FromValues_topic_key
    by (rewrite ?Gt; exact Hne).
  now rewrite Gt, Gu.
Qed.

Lemma FromValues_topic_precedence_witness :
  FromValues test_feed
    [("topic"%string, test_topic_hex); ("name"%string, test_related);
     ("relatedcontent"%string, bytes_of_string "zz");
     ("user"%string, golden_checksum)]
  = FromValues test_feed
      [("topic"%string, test_topic_hex); ("user"%string, golden_checksum)].
Proof.
  apply (FromValues_topic_precedence test_feed
           [("topic"%string, test_topic_hex);
            ("user"%string, golden_checksum)]).
  - discriminate.
  - reflexivity.
  - reflexivity.
Defined.

(** X12: when the key [topic] holds a text that is not well-formed
    hexadecimal or that does not decode to 32 bytes, [FromValues] fails
    with the [ErrInvalidValue] error of [FromHex] and the feed, topic and
    user, is left as it was, whatever the other keys hold. *)
Theorem FromValues_bad_topic (f : Feed) (values : Values) :
  Values_Get values "topic" <> [] ->
  is_hex_string (Values_Get values "topic") = false
  \/ length (fst (hex_Decode (Values_Get values "topic"))) <> TopicLength ->
  FromValues f values = (f, Some topic_decode_error).
Proof.
  intros Hne Hbad.
  rewrite FromValues_unfold, (FromValues_topic_key f values Hne).
  rewrite FromHex_unfold.
  assert (E : match snd (hex_Decode (Values_Get values "topic")) with
              | Some _ => (Feed_Topic f, Some topic_decode_error)
              | None =>
                  if (length (fst (hex_Decode (Values_Get values "topic")))
                      =? TopicLength)%nat
                  then (copy (Feed_Topic f)
                             (fst (hex_Decode (Values_Get values "topic"))),
                        None)
                  else (Feed_Topic f, Some topic_decode_error)
              end = (Feed_Topic f, Some topic_decode_error)).
  { destruct Hbad as [Hhex | Hlen].
    - destruct (snd (hex_Decode (Values_Get values "topic"))) eqn:E;
        [reflexivity |].
      apply hex_Decode_ok_iff in E. congruence.
    - destruct (snd (hex_Decode (Values_Get values "topic")));
        [reflexivity |].
      destruct (Nat.eqb_spec
                  (length (fst (hex_Decode (Values_Get values "topic"))))
                  TopicLength); [contradiction | reflexivity]. }
  rewrite E. cbn [fst snd]. now destruct f.
Qed.

Lemma FromValues_bad_topic_witness :
  FromValues test_feed
    [("topic"%string, bytes_of_string "abcd");
     ("user"%string, golden_checksum)]
  = (test_feed, Some topic_decode_error).
Proof.
  apply (FromValues_bad_topic test_feed).
  - discriminate.
  - right. vm_compute. lia.
Defined.
